(** * Skip-gram word2vec notebooks: data preparation and validation

    A shallow embedding of the plain-Python logic of
    [embeddings/word2vec-skip-gram-tensorboard.ipynb] and
    [embeddings/word2vec-skip-gram-restore-model.ipynb]:
    the batch generator ([get_target], [get_batches]), the subsampler
    ([subsampling]), the vocabulary save cell and the nearest-neighbour
    lookup ([validate] followed by [argsort]). *)

From Stdlib Require Import Reals Lra.
From Stdlib Require PrimFloat FloatAxioms SpecFloat FloatOps Uint63.
From stdpp Require Import gmap strings list fin_maps pretty sorting.

(** ** Python results: a value or a raised exception *)

Inductive exn : Set :=
  | ZeroDivisionError
  | ValueError
  | KeyError
  | IndexError
  | InvalidArgumentError.

Inductive result (A : Type) : Type :=
  | Ok (a : A)
  | Raise (e : exn).
Arguments Ok {A} a.
Arguments Raise {A} e.

#[global] Instance result_ret : MRet result := fun A a => Ok a.
#[global] Instance result_bind : MBind result := fun A B f m =>
  match m with
  | Ok a => f a
  | Raise e => Raise e
  end.

(** [d[k]] on a dict: [KeyError] when the key is absent. *)
Definition getitem `{Countable K} {V} (d : gmap K V) (k : K) : result V :=
  match d !! k with
  | Some v => Ok v
  | None => Raise KeyError
  end.

(** [l[a:b]] for non-negative [a] and [b]: positions [a <= j < b], clipped at
    the end of the list, empty when [b <= a]. *)
Definition slice {A} (l : list A) (a b : nat) : list A := take (b - a) (drop a l).

(** [range(0, stop, step)] for a positive [step]. *)
Definition py_range (stop step : nat) : list nat :=
  (λ k, k * step) <$> seq 0 ((stop + step - 1) / step).

(** ** The batch generator *)

Module Batches.

(** [np.random.randint(low, high)]: an integer of [[low, high)], [ValueError]
    when the interval is empty.  The generator's entropy is an explicit
    input: [raw] is what the generator holds for this call, and every value
    of the interval is reached by some [raw]. *)
Definition randint (low high raw : nat) : result nat :=
  if decide (low < high) then Ok (low + raw mod (high - low)) else Raise ValueError.

(** The window of [get_target] once the radius [R] is drawn:
    [words[start:idx] + words[idx+1:stop+1]]. *)
Definition window (words : list Z) (idx R : nat) : list Z :=
  let start := Z.to_nat (Z.max 0 (Z.of_nat idx - Z.of_nat R)) in
  let stop := idx + R in
  slice words start idx ++ slice words (idx + 1) (stop + 1).

(** [list(set(...))]: the tokens of the window, each once.  Python leaves the
    order of a set unspecified; [elements] is one such order. *)
Definition target_words (words : list Z) (idx R : nat) : list Z :=
  elements (list_to_set (window words idx R) : gset Z).

Definition get_target (words : list Z) (idx window_size raw : nat) : result (list Z) :=
  R ← randint 1 (window_size + 1) raw;
  Ok (target_words words idx R).

(** The inner loop of [get_batches] over the positions of [batch]; the
    state is [x], [y] and the number of draws made so far. *)
Fixpoint fill_batch (batch : list Z) (window_size : nat) (rand : nat → nat)
    (positions : list nat) (st : list Z * list Z * nat) : result (list Z * list Z * nat) :=
  match positions with
  | [] => Ok st
  | i :: rest =>
      let '(x, y, k) := st in
      match batch !! i with
      | None => Raise IndexError
      | Some batch_x =>
          batch_y ← get_target batch i window_size (rand k);
          fill_batch batch window_size rand rest
            (x ++ replicate (length batch_y) batch_x, y ++ batch_y, S k)
      end
  end.

(** The outer loop, drained: the batches yielded, and the exception that
    ended the iteration if one was raised. *)
Fixpoint run_batches (words : list Z) (batch_size window_size : nat) (rand : nat → nat)
    (idxs : list nat) (k : nat) : list (list Z * list Z) * option exn :=
  match idxs with
  | [] => ([], None)
  | idx :: rest =>
      let batch := slice words idx (idx + batch_size) in
      match fill_batch batch window_size rand (seq 0 (length batch)) ([], [], k) with
      | Raise e => ([], Some e)
      | Ok (x, y, k') =>
          let '(bs, e) := run_batches words batch_size window_size rand rest k' in
          ((x, y) :: bs, e)
      end
  end.

(** [get_batches].  [int(len(words) / batch_size)] goes through a float
    division, which is the integer quotient for every length a list can
    have (below 2^53). *)
Definition get_batches (words : list Z) (batch_size window_size : nat) (rand : nat → nat)
    : list (list Z * list Z) * option exn :=
  if decide (batch_size = 0) then ([], Some ZeroDivisionError)
  else
    let n_batches := length words / batch_size in
    let words := take (n_batches * batch_size) words in
    run_batches words batch_size window_size rand (py_range (length words) batch_size) 0.

(** The radius that [randint(1, window_size+1)] draws from [raw]. *)
Definition drawn_radius (window_size raw : nat) : nat := 1 + raw mod window_size.

(** One batch as the notebook describes it: one row per input-target pair,
    the center repeated once per target of its window. *)
Definition block_targets (batch : list Z) (R : nat → nat) : list (list Z) :=
  (λ i, target_words batch i (R i)) <$> seq 0 (length batch).

Definition batch_pairs (batch : list Z) (R : nat → nat) : list Z * list Z :=
  let ts := block_targets batch R in
  (concat (zip_with (λ c t, replicate (length t) c) batch ts), concat ts).

(** The [k]-th block of [batch_size] consecutive tokens. *)
Definition block (words : list Z) (batch_size k : nat) : list Z :=
  slice words (k * batch_size) (k * batch_size + batch_size).

(** The radii of the [k]-th batch: its [i]-th center uses the draw number
    [k * batch_size + i]. *)
Definition batch_radius (batch_size window_size : nat) (rand : nat → nat) (k i : nat) : nat :=
  drawn_radius window_size (rand (k * batch_size + i)).

Definition nth_batch (words : list Z) (batch_size window_size : nat) (rand : nat → nat)
    (k : nat) : list Z * list Z :=
  batch_pairs (block words batch_size k) (batch_radius batch_size window_size rand k).

(** The claim that no emitted pair has its center as its context. *)
Definition no_self_pair (words : list Z) (batch_size window_size : nat)
    (rand : nat → nat) : Prop :=
  ∀ x y c t, (x, y) ∈ (get_batches words batch_size window_size rand).1 →
    (c, t) ∈ zip x y → c ≠ t.

End Batches.

(** ** The subsampler, over the real numbers

    Python's floats are read as real numbers here, for the properties of
    the closed form [1 - sqrt (t / f)] that correctly rounded operations
    keep: the order of the drop probabilities, the absence of exceptions,
    what a whole run keeps or drops.  Where a single comparison of a drop
    probability with a draw is at stake, the embedding in binary64
    ([Subsampler64], below) is the one to read. *)

Module Subsampler.

(** [Counter(words)]: every token of [words] with its number of occurrences. *)
Fixpoint Counter (words : list Z) : gmap Z nat :=
  match words with
  | [] => ∅
  | w :: rest => let c := Counter rest in <[w := S (default 0 (c !! w))]> c
  end.

(** [a / b] on floats: [ZeroDivisionError] on a zero divisor. *)
Definition truediv (a b : R) : result R :=
  if Req_dec_T b 0 then Raise ZeroDivisionError else Ok (a / b)%R.

(** A dict comprehension over the items of a dict, in the dict's order; the
    first exception ends it. *)
Fixpoint comprehend {V W} (f : Z → V → result W) (items : list (Z * V)) (acc : gmap Z W)
    : result (gmap Z W) :=
  match items with
  | [] => Ok acc
  | (k, v) :: rest => w ← f k v; comprehend f rest (<[k := w]> acc)
  end.

Definition dict_comp {V W} (f : Z → V → result W) (d : gmap Z V) : result (gmap Z W) :=
  comprehend f (map_to_list d) ∅.

(** [freqs = {word: count/total_count for word, count in words_count.items()}] *)
Definition freqs (words : list Z) : result (gmap Z R) :=
  let words_count := Counter words in
  let total_count := length words in
  dict_comp (λ _ count, truediv (INR count) (INR total_count)) words_count.

(** [p_drop = {word: 1 - np.sqrt(threshold/freqs[word]) for word in words_count}] *)
Definition p_drop (words : list Z) (threshold : R) (freqs : gmap Z R) : result (gmap Z R) :=
  dict_comp (λ word _, f ← getitem freqs word;
                        q ← truediv threshold f;
                        Ok (1 - sqrt q)%R) (Counter words).

(** [[word for word in words if p_drop[word] < random.random()]]; [draw k] is
    the value of the [k]-th call of [random.random()], a real of [[0, 1)]. *)
Fixpoint keep_words (p_drop : gmap Z R) (draw : nat → R) (k : nat) (words : list Z)
    : result (list Z) :=
  match words with
  | [] => Ok []
  | word :: rest =>
      p ← getitem p_drop word;
      out ← keep_words p_drop draw (S k) rest;
      Ok (if Rlt_dec p (draw k) then word :: out else out)
  end.

Definition subsampling (words : list Z) (threshold : R) (draw : nat → R) : result (list Z) :=
  fq ← freqs words;
  pd ← p_drop words threshold fq;
  keep_words pd draw 0 words.

(** The closed forms: the frequency of a token in the corpus and its drop
    probability. *)
Definition frequency (words : list Z) (w : Z) : R :=
  (INR (count_occ Z.eq_dec words w) / INR (length words))%R.

Definition drop_probability (words : list Z) (t : R) (w : Z) : R :=
  (1 - sqrt (t / frequency words w))%R.

(** The occurrences a rule [keep p u] retains, [p] the token's drop
    probability and [u] the draw made for the occurrence. *)
Fixpoint retained (keep : R → R → bool) (p : Z → R) (draw : nat → R) (k : nat)
    (words : list Z) : list Z :=
  match words with
  | [] => []
  | w :: rest =>
      if keep (p w) (draw k) then w :: retained keep p draw (S k) rest
      else retained keep p draw (S k) rest
  end.

(** The notebook's rule: keep when [p < u]. *)
Definition keep_if_above (p u : R) : bool := if Rlt_dec p u then true else false.

End Subsampler.

(** ** The vocabulary save cell *)

Module Vocabulary.

(** The dict that is pickled. *)
Record saved := Saved {
  vocab_to_int : gmap string Z;
  int_to_vocab : gmap Z string;
  embed_dim : Z;
  num_sampled : Z
}.

(** A file holds a pickled dict or something else. *)
Inductive file :=
  | Pickled (obj : saved)
  | Bytes (content : string).

Inductive fs_event :=
  | Removed (path : string)
  | Dumped (path : string) (obj : saved).

(** ['model_data_{}_{}.cpkt'.format(embed_dim, num_sampled)] *)
Definition dictionary_path (embed_dim num_sampled : Z) : string :=
  "model_data_" +:+ pretty embed_dim +:+ "_" +:+ pretty num_sampled +:+ ".cpkt".

(** The cell, as a transformer of the directory; it also returns what it
    did to it. *)
Definition save_vocabulary (fs : gmap string file) (v2i : gmap string Z)
    (i2v : gmap Z string) (embed_dim num_sampled : Z)
    : gmap string file * list fs_event :=
  let path := dictionary_path embed_dim num_sampled in
  if decide (is_Some (fs !! path)) then
    (delete path fs, [Removed path])
  else
    let to_save := {| vocab_to_int := v2i; int_to_vocab := i2v;
                      embed_dim := embed_dim; num_sampled := num_sampled |} in
    (<[path := Pickled to_save]> fs, [Dumped path to_save]).

(** The writes among the events. *)
Definition dumps (events : list fs_event) : list (string * saved) :=
  omap (λ e, match e with Dumped p o => Some (p, o) | Removed _ => None end) events.

(** The artifact is in place: written exactly once, and the file holds the
    two mappings and the two hyperparameters. *)
Definition artifact_written (fs' : gmap string file) (events : list fs_event)
    (v2i : gmap string Z) (i2v : gmap Z string) (dim sampled : Z) : Prop :=
  let obj := Saved v2i i2v dim sampled in
  fs' !! dictionary_path dim sampled = Some (Pickled obj) ∧
  dumps events = [(dictionary_path dim sampled, obj)].

End Vocabulary.

(** ** The nearest-neighbour validator

    The graph of [validate] is written over an interface of the tensor's
    element type, so that what is proved holds for whatever arithmetic the
    framework runs (float32 on the default graph). *)

Module Validator.

Class Scalar (F : Type) := {
  fzero : F;
  fadd : F → F → F;
  fmul : F → F → F;
  fdiv : F → F → F;
  fsqrt : F → F;
  fneg : F → F;
  fltb : F → F → bool
}.

(** IEEE binary64. *)
#[global] Instance float64 : Scalar PrimFloat.float := {|
  fzero := PrimFloat.zero;
  fadd := PrimFloat.add;
  fmul := PrimFloat.mul;
  fdiv := PrimFloat.div;
  fsqrt := PrimFloat.sqrt;
  fneg := PrimFloat.opp;
  fltb := PrimFloat.ltb
|}.

Section graph.
Context {F : Type} `{Scalar F}.

Definition reduce_sum (v : list F) : F := foldl fadd fzero v.

(** [tf.sqrt(tf.reduce_sum(tf.square(embeddings), 1, keep_dims=True))], one row *)
Definition norm (v : list F) : F := fsqrt (reduce_sum ((λ x, fmul x x) <$> v)).

(** [embeddings / norm] *)
Definition normalize (embeddings : list (list F)) : list (list F) :=
  (λ v, (λ x, fdiv x (norm v)) <$> v) <$> embeddings.

(** [tf.nn.embedding_lookup]: the rows of the given ids; an id out of range
    is an error of the op. *)
Fixpoint embedding_lookup (params : list (list F)) (ids : list nat) : result (list (list F)) :=
  match ids with
  | [] => Ok []
  | i :: rest =>
      match params !! i with
      | None => Raise InvalidArgumentError
      | Some v => vs ← embedding_lookup params rest; Ok (v :: vs)
      end
  end.

(** [tf.matmul(a, tf.transpose(b))] *)
Definition matmul_transpose (a b : list (list F)) : list (list F) :=
  (λ u, (λ v, reduce_sum (zip_with fmul u v)) <$> b) <$> a.

Definition validate (embeddings : list (list F)) (int_codes : list nat)
    : result (list (list F)) :=
  let normalized_embedding := normalize embeddings in
  sample_embedding ← embedding_lookup normalized_embedding int_codes;
  Ok (matmul_transpose sample_embedding normalized_embedding).

(** [(-sim[i, :]).argsort()[1:top_k+1]].  [argsort] is NumPy's; it is a
    parameter here. *)
Definition nearest (argsort : list F → list nat) (sim_row : list F) (top_k : nat) : list nat :=
  slice (argsort (fneg <$> sim_row)) 1 (top_k + 1).

(** What [argsort] promises of its result [p] on [row]: the indices of
    [row], each once, such that no entry is less than one placed before it. *)
Definition not_less (row : list F) (i j : nat) : bool :=
  match row !! i, row !! j with
  | Some x, Some y => negb (fltb y x)
  | _, _ => true
  end.

Definition is_argsort (row : list F) (p : list nat) : Prop :=
  p ≡ₚ seq 0 (length row) ∧ StronglySorted (λ i j, not_less row i j = true) p.

(** One such [argsort]: insertion from left to right, an index going
    before the first one that holds a greater entry. *)
Fixpoint insert_index (row : list F) (i : nat) (p : list nat) : list nat :=
  match p with
  | [] => [i]
  | j :: rest =>
      match row !! i, row !! j with
      | Some x, Some y => if fltb x y then i :: j :: rest else j :: insert_index row i rest
      | _, _ => j :: insert_index row i rest
      end
  end.

Definition insertion_argsort (row : list F) : list nat :=
  foldl (λ p i, insert_index row i p) [] (seq 0 (length row)).

End graph.

(** The claim that the lookup never lists the query among its own
    neighbours, for a given [argsort]. *)
Definition query_excluded {F} `{Scalar F} (argsort : list F → list nat) : Prop :=
  ∀ (embeddings : list (list F)) (int_codes : list nat) (top_k : nat) sim i q row,
    validate embeddings int_codes = Ok sim →
    int_codes !! i = Some q → sim !! i = Some row →
    q ∉ nearest argsort row top_k.

End Validator.

(** ** The encoding cell

    [int_words = [vocab_to_int[w] for w in words]] *)

Module Preprocess.

Fixpoint int_words (vocab_to_int : gmap string Z) (words : list string) : result (list Z) :=
  match words with
  | [] => Ok []
  | w :: rest =>
      i ← getitem vocab_to_int w;
      ids ← int_words vocab_to_int rest;
      Ok (i :: ids)
  end.

End Preprocess.

(** ** The checkpoints of the training loop *)

Module Training.

(** ['./checkpoints/word2vec_{}_{}_{}.ckpt'.format(embed_dim,num_sampled,epoch)] *)
Definition checkpoint_path (embed_dim num_sampled epoch : Z) : string :=
  "./checkpoints/word2vec_" +:+ pretty embed_dim +:+ "_" +:+ pretty num_sampled
    +:+ "_" +:+ pretty epoch +:+ ".ckpt".

End Training.

(** ** The restore notebook *)

Module Restore.

Inductive load_error : Set :=
  | FileNotFoundError
  | UnpicklingError.

(** The file the notebook opens. *)
Definition dictionary_file : string := "dictionary.cpkt".

(** [dictionaries = pickle.load(f)], then the two mappings are read from it. *)
Definition load_vocabulary (fs : gmap string Vocabulary.file)
    : load_error + (gmap string Z * gmap Z string) :=
  match fs !! dictionary_file with
  | None => inl FileNotFoundError
  | Some (Vocabulary.Bytes _) => inl UnpicklingError
  | Some (Vocabulary.Pickled dictionaries) =>
      inr (Vocabulary.vocab_to_int dictionaries, Vocabulary.int_to_vocab dictionaries)
  end.

(** The checkpoint the notebook restores. *)
Definition model_path : string := "./checkpoints/word2vec_1.ckpt".

(** The number of ['_'] (the character 95) in a string. *)
Fixpoint underscores (s : string) : nat :=
  match s with
  | EmptyString => 0
  | String c rest =>
      (if Ascii.eqb c (Ascii.ascii_of_nat 95) then 1 else 0) + underscores rest
  end.

End Restore.

(** ** Printing the nearest neighbours

    The loop shared by the lookup cell of the restore notebook and the
    validation step of [train]. *)

Module Lookup.
Import Validator.

(** [a[i]] on a list or an array: [IndexError] out of range. *)
Definition index {A} (a : list A) (i : nat) : result A :=
  match a !! i with
  | Some x => Ok x
  | None => Raise IndexError
  end.

Section report.
Context {F : Type} `{Scalar F}.

(** [for k in range(top_k): close_word = int_to_vocab[nearest[k]];
    log = '%s %s,' % (log, close_word)] *)
Fixpoint log_neighbours (int_to_vocab : gmap Z string) (nearest : list nat)
    (ks : list nat) (log : string) : result string :=
  match ks with
  | [] => Ok log
  | k :: rest =>
      id ← index nearest k;
      close_word ← getitem int_to_vocab (Z.of_nat id);
      log_neighbours int_to_vocab nearest rest (log +:+ " " +:+ close_word +:+ ",")
  end.

(** The body of the loop over the queries: the line printed for query [i]. *)
Definition nearest_line (argsort : list F → list nat) (int_to_vocab : gmap Z string)
    (sample_examples : list nat) (sim : list (list F)) (top_k i : nat) : result string :=
  q ← index sample_examples i;
  sample_word ← getitem int_to_vocab (Z.of_nat q);
  row ← index sim i;
  let nearest := nearest argsort row top_k in
  log_neighbours int_to_vocab nearest (seq 0 top_k) ("Nearest to " +:+ sample_word +:+ ":").

(** The loop, drained: the lines printed, and the exception that ended it
    if one was raised. *)
Fixpoint report (argsort : list F → list nat) (int_to_vocab : gmap Z string)
    (sample_examples : list nat) (sim : list (list F)) (top_k : nat) (queries : list nat)
    : list string * option exn :=
  match queries with
  | [] => ([], None)
  | i :: rest =>
      match nearest_line argsort int_to_vocab sample_examples sim top_k i with
      | Raise e => ([], Some e)
      | Ok line =>
          let '(lines, e) := report argsort int_to_vocab sample_examples sim top_k rest in
          (line :: lines, e)
      end
  end.

(** The lookup cell of the restore notebook: the ids 0 to 9 and 186, eight
    neighbours each. *)
Definition lookup_cell (argsort : list F → list nat) (embeddings : list (list F))
    (int_to_vocab : gmap Z string) : list string * option exn :=
  let sample_examples := seq 0 10 ++ [186] in
  let sample_size := length sample_examples in
  match validate embeddings sample_examples with
  | Raise e => ([], Some e)
  | Ok sim => report argsort int_to_vocab sample_examples sim 8 (seq 0 sample_size)
  end.

(** [random.sample(population, k)]: [k] elements at [k] different positions
    of the population, [ValueError] when the population is smaller.  The
    generator's entropy is an explicit input, read from position [j] on. *)
Fixpoint pick (pool : list nat) (k : nat) (raw : nat → nat) (j : nat) : list nat :=
  match k with
  | 0 => []
  | S k' =>
      match pool with
      | [] => []
      | p0 :: _ =>
          let i := raw j mod length pool in
          nth i pool p0 :: pick (delete i pool) k' raw (S j)
      end
  end.

Definition random_sample (population : list nat) (k : nat) (raw : nat → nat) (j : nat)
    : result (list nat) :=
  if decide (k ≤ length population) then Ok (pick population k raw j)
  else Raise ValueError.

(** [validate_random], with the evaluation of the similarity it builds. *)
Definition validate_random (embeddings : list (list F)) (sample_size sample_window : nat)
    (raw : nat → nat) : result (list (list F) * list nat) :=
  low ← random_sample (seq 0 sample_window) (sample_size / 2) raw 0;
  high ← random_sample (seq 1000 sample_window) (sample_size / 2) raw (sample_size / 2);
  let sample_examples := low ++ high in
  similarity ← validate embeddings sample_examples;
  Ok (similarity, sample_examples).

(** The validation step of [train]: sixteen queries, five neighbours each. *)
Definition train_validation (argsort : list F → list nat) (embeddings : list (list F))
    (int_to_vocab : gmap Z string) (raw : nat → nat) : list string * option exn :=
  let sample_size := 16 in
  match validate_random embeddings sample_size 100 raw with
  | Raise e => ([], Some e)
  | Ok (sim, sample_examples) =>
      report argsort int_to_vocab sample_examples sim 5 (seq 0 sample_size)
  end.

End report.

End Lookup.

(** ** The subsampler, in binary64

    The same function with the arithmetic Python runs: [count/total_count]
    is the correctly rounded quotient of the two integers, which is the
    binary64 quotient of their conversions for a sequence of fewer than
    2^53 tokens; [threshold/freqs[word]], [np.sqrt] and [1 - ...] are the
    binary64 operations, and [<] the binary64 comparison. *)

Module Subsampler64.

Abbreviation float := PrimFloat.float.

(** The binary64 value of a count. *)
Definition of_count (n : nat) : float := PrimFloat.of_uint63 (Uint63.of_Z (Z.of_nat n)).

(** [a / b] on integers: [ZeroDivisionError] on a zero divisor. *)
Definition int_truediv (a b : nat) : result float :=
  if decide (b = 0) then Raise ZeroDivisionError
  else Ok (PrimFloat.div (of_count a) (of_count b)).

(** [a / b] on floats: [ZeroDivisionError] when [b == 0.0]. *)
Definition truediv (a b : float) : result float :=
  if PrimFloat.eqb b PrimFloat.zero then Raise ZeroDivisionError
  else Ok (PrimFloat.div a b).

(** [freqs = {word: count/total_count for word, count in words_count.items()}] *)
Definition freqs (words : list Z) : result (gmap Z float) :=
  let words_count := Subsampler.Counter words in
  let total_count := length words in
  Subsampler.dict_comp (λ _ count, int_truediv count total_count) words_count.

(** [p_drop = {word: 1 - np.sqrt(threshold/freqs[word]) for word in words_count}] *)
Definition p_drop (words : list Z) (threshold : float) (freqs : gmap Z float)
    : result (gmap Z float) :=
  Subsampler.dict_comp
    (λ word _, f ← getitem freqs word;
               q ← truediv threshold f;
               Ok (PrimFloat.sub PrimFloat.one (PrimFloat.sqrt q)))
    (Subsampler.Counter words).

(** [[word for word in words if p_drop[word] < random.random()]]; [draw k] is
    the value of the [k]-th call of [random.random()]. *)
Fixpoint keep_words (p_drop : gmap Z float) (draw : nat → float) (k : nat)
    (words : list Z) : result (list Z) :=
  match words with
  | [] => Ok []
  | word :: rest =>
      p ← getitem p_drop word;
      out ← keep_words p_drop draw (S k) rest;
      Ok (if PrimFloat.ltb p (draw k) then word :: out else out)
  end.

Definition subsampling (words : list Z) (threshold : float) (draw : nat → float)
    : result (list Z) :=
  fq ← freqs words;
  pd ← p_drop words threshold fq;
  keep_words pd draw 0 words.

(** The values the tables hold for a token: its frequency and its drop
    probability, each operation rounded. *)
Definition frequency (words : list Z) (w : Z) : float :=
  PrimFloat.div (of_count (count_occ Z.eq_dec words w)) (of_count (length words)).

Definition drop_probability (words : list Z) (t : float) (w : Z) : float :=
  PrimFloat.sub PrimFloat.one (PrimFloat.sqrt (PrimFloat.div t (frequency words w))).

(** The occurrences a rule [keep p u] retains, [p] the token's drop
    probability and [u] the draw made for the occurrence. *)
Fixpoint retained (keep : float → float → bool) (p : Z → float) (draw : nat → float)
    (k : nat) (words : list Z) : list Z :=
  match words with
  | [] => []
  | w :: rest =>
      if keep (p w) (draw k) then w :: retained keep p draw (S k) rest
      else retained keep p draw (S k) rest
  end.

(** The rule "drop exactly when the draw is less than [p]". *)
Definition drop_if_below (p u : float) : bool := negb (PrimFloat.ltb u p).

(** The claim that the subsampler follows that rule. *)
Definition drops_below_draw (words : list Z) (t : float) (draw : nat → float) : Prop :=
  subsampling words t draw =
  Ok (retained drop_if_below (drop_probability words t) draw 0 words).

(** 1/2, 1/4 and 1/8. *)
Definition half : float := PrimFloat.div PrimFloat.one PrimFloat.two.
Definition quarter : float := PrimFloat.mul half half.
Definition eighth : float := PrimFloat.mul half quarter.

End Subsampler64.

(** ** Windows in positions of the sequence *)

Module SequenceWindows.

(** The positions a center of the [k]-th batch, [i]-th of its block, takes
    its targets from with the radius [R]: within [R] of the center, inside
    the block, the center left out. *)
Definition batch_window (batch_size k i R : nat) (p : nat) : Prop :=
  (Z.max (Z.of_nat (k * batch_size)) (Z.of_nat (k * batch_size + i) - Z.of_nat R)
     ≤ Z.of_nat p
     ≤ Z.min (Z.of_nat (k * batch_size + batch_size) - 1)
         (Z.of_nat (k * batch_size + i) + Z.of_nat R))%Z ∧
  p ≠ k * batch_size + i.

(** The claim that the generator pairs each center with every token found
    within the drawn radius of its position in the sequence. *)
Definition spans_sequence (words : list Z) (batch_size window_size : nat)
    (rand : nat → nat) : Prop :=
  ∀ k x y i j c t,
    (Batches.get_batches words batch_size window_size rand).1 !! k = Some (x, y) →
    i < batch_size →
    words !! (k * batch_size + i) = Some c →
    words !! j = Some t →
    j ≠ k * batch_size + i →
    k * batch_size + i - Batches.batch_radius batch_size window_size rand k i ≤ j
      ≤ k * batch_size + i + Batches.batch_radius batch_size window_size rand k i →
    (c, t) ∈ zip x y.

End SequenceWindows.

(** * Facts *)

(** ** Slices and ranges *)

Lemma lookup_slice {A} (l : list A) a b i :
  slice l a b !! i = if decide (i < b - a) then l !! (a + i) else None.
Proof. unfold slice. rewrite lookup_take, lookup_drop. done. Qed.

Lemma elem_of_slice {A} (l : list A) a b x :
  x ∈ slice l a b ↔ ∃ j, a ≤ j < b ∧ l !! j = Some x.
Proof.
  rewrite list_elem_of_lookup. split.
  - intros [i Hi]. rewrite lookup_slice in Hi. case_decide; [|done].
    exists (a + i). split; [lia|done].
  - intros (j & Hj & Hx). exists (j - a). rewrite lookup_slice.
    rewrite decide_True by lia. by replace (a + (j - a)) with j by lia.
Qed.

Lemma length_slice {A} (l : list A) a b :
  b ≤ length l → length (slice l a b) = b - a.
Proof. intros. unfold slice. rewrite length_take, length_drop. lia. Qed.

Lemma slice_take {A} (l : list A) a b m :
  b ≤ m → slice (take m l) a b = slice l a b.
Proof.
  intros. apply list_eq. intros i. rewrite !lookup_slice.
  case_decide; [|done]. apply lookup_take_lt. lia.
Qed.

Lemma py_range_multiple n step :
  0 < step → py_range (n * step) step = (λ k, k * step) <$> seq 0 n.
Proof.
  intros. unfold py_range. f_equal. f_equal.
  replace (n * step + step - 1) with (step - 1 + n * step) by lia.
  rewrite Nat.div_add by lia. rewrite Nat.div_small by lia. done.
Qed.

(** ** The window of [get_target] *)

Section window_facts.
Import Batches.

Lemma elem_of_window words idx R w :
  w ∈ window words idx R ↔
  ∃ j, words !! j = Some w ∧ j ≠ idx ∧ idx - R ≤ j ≤ idx + R.
Proof.
  unfold window. rewrite elem_of_app, !elem_of_slice.
  replace (Z.to_nat (Z.max 0 (Z.of_nat idx - Z.of_nat R))) with (idx - R) by lia.
  split.
  - intros [(j & Hj & Hw)|(j & Hj & Hw)]; exists j; (split; [done|lia]).
  - intros (j & Hw & Hne & Hj).
    destruct (decide (j < idx)); [left|right]; exists j; (split; [lia|done]).
Qed.

Lemma elem_of_target_words words idx R w :
  w ∈ target_words words idx R ↔ w ∈ window words idx R.
Proof. unfold target_words. by rewrite elem_of_elements, elem_of_list_to_set. Qed.

Lemma NoDup_target_words words idx R : NoDup (target_words words idx R).
Proof. apply NoDup_elements. Qed.

Lemma get_target_draw words idx window_size raw :
  0 < window_size →
  get_target words idx window_size raw =
    Ok (target_words words idx (drawn_radius window_size raw)).
Proof.
  intros. unfold get_target, randint, drawn_radius.
  rewrite decide_True by lia. simpl.
  by replace (window_size + 1 - 1) with window_size by lia.
Qed.

Lemma get_target_no_window words idx raw :
  get_target words idx 0 raw = Raise ValueError.
Proof. done. Qed.

Lemma drawn_radius_range window_size raw :
  0 < window_size → 1 ≤ drawn_radius window_size raw ≤ window_size.
Proof.
  intros. unfold drawn_radius.
  pose proof (Nat.mod_upper_bound raw window_size). lia.
Qed.

End window_facts.

(** X19.  On the list that [get_target] is handed: once the radius [R] is
    drawn, the targets of position [idx] of that list are
    the tokens found at the positions of
    [[max(0, idx-R), min(N-1, idx+R)]] other than [idx], each token once;
    and [get_target] returns these targets for a radius of [[1, C]]
    (it raises only when the window size [C] leaves no radius to draw). *)
Theorem get_target_window (words : list Z) (idx R C raw : nat) :
  NoDup (Batches.target_words words idx R) ∧
  (∀ w, w ∈ Batches.target_words words idx R ↔
        ∃ j : nat, (Z.max 0 (Z.of_nat idx - Z.of_nat R) ≤ Z.of_nat j
                    ≤ Z.min (Z.of_nat (length words) - 1) (Z.of_nat idx + Z.of_nat R))%Z ∧
                   j ≠ idx ∧ words !! j = Some w) ∧
  match Batches.get_target words idx C raw with
  | Ok l => ∃ R', 1 ≤ R' ≤ C ∧ l = Batches.target_words words idx R'
  | Raise _ => C = 0
  end.
Proof.
  split; [apply NoDup_target_words|]. split.
  - intros w. rewrite elem_of_target_words, elem_of_window. split.
    + intros (j & Hw & Hne & Hj). exists j.
      apply lookup_lt_Some in Hw as Hlt. split; [lia|done].
    + intros (j & Hj & Hne & Hw). exists j. split; [done|]. split; [done|lia].
  - destruct (decide (0 < C)) as [HC|HC].
    + rewrite get_target_draw by done.
      eexists. split; [by apply (drawn_radius_range C raw)|done].
    + replace C with 0 by lia. done.
Qed.

(** ** The loops of [get_batches] *)

Section batch_facts.
Import Batches.

Lemma length_block words batch_size k :
  (k + 1) * batch_size ≤ length words → length (block words batch_size k) = batch_size.
Proof. intros. unfold block. rewrite length_slice by lia. lia. Qed.

Lemma block_take words batch_size k m :
  (k + 1) * batch_size ≤ m → block (take m words) batch_size k = block words batch_size k.
Proof. intros. unfold block. apply slice_take. lia. Qed.

(** The inner loop from position [s] on, [n] positions to go. *)
Lemma fill_batch_seq batch window_size rand k0 :
  0 < window_size →
  let T i := target_words batch i (drawn_radius window_size (rand (k0 + i))) in
  ∀ n s x y, s + n ≤ length batch →
    fill_batch batch window_size rand (seq s n) (x, y, k0 + s) =
    Ok (x ++ concat (zip_with (λ c t, replicate (length t) c)
                       (take n (drop s batch)) (T <$> seq s n)),
        y ++ concat (T <$> seq s n), k0 + s + n).
Proof.
  intros HW T n. induction n as [|n IH]; intros s x y Hlen; simpl.
  - by rewrite !app_nil_r, Nat.add_0_r.
  - destruct (lookup_lt_is_Some_2 batch s) as [c Hc]; [lia|].
    rewrite Hc, get_target_draw by done. simpl.
    replace (S (k0 + s)) with (k0 + S s) by lia.
    rewrite IH by lia.
    rewrite (drop_S _ _ _ Hc). simpl.
    rewrite <- !app_assoc. replace (k0 + S s + n) with (k0 + s + S n) by lia. done.
Qed.

Lemma fill_batch_pairs batch window_size rand k0 :
  0 < window_size →
  fill_batch batch window_size rand (seq 0 (length batch)) ([], [], k0) =
  Ok (batch_pairs batch (λ i, drawn_radius window_size (rand (k0 + i))),
      k0 + length batch).
Proof.
  intros HW. pose proof (fill_batch_seq batch window_size rand k0 HW
    (length batch) 0 [] []) as Hfill. simpl in Hfill.
  rewrite Nat.add_0_r in Hfill. rewrite Hfill by lia.
  unfold batch_pairs, block_targets. simpl. by rewrite firstn_all.
Qed.

(** The outer loop over the block starts [k0 * B, (k0+1) * B, ...]. *)
Lemma run_batches_blocks words batch_size window_size rand :
  0 < window_size →
  ∀ n k0, (k0 + n) * batch_size ≤ length words →
    run_batches words batch_size window_size rand
      ((λ k, k * batch_size) <$> seq k0 n) (k0 * batch_size) =
    (nth_batch words batch_size window_size rand <$> seq k0 n, None).
Proof.
  intros HW n. induction n as [|n IH]; intros k0 Hlen; [done|].
  simpl. fold (block words batch_size k0).
  rewrite fill_batch_pairs by done.
  rewrite length_block by lia.
  replace (k0 * batch_size + batch_size) with (S k0 * batch_size) by lia.
  rewrite IH by lia. done.
Qed.

Lemma get_batches_blocks words batch_size window_size rand :
  0 < batch_size → 0 < window_size ∨ length words < batch_size →
  get_batches words batch_size window_size rand =
  (nth_batch words batch_size window_size rand <$> seq 0 (length words / batch_size), None).
Proof.
  intros HB HW. unfold get_batches. rewrite decide_False by lia.
  set (n := length words / batch_size).
  assert (n * batch_size ≤ length words) as Hn
    by (unfold n; rewrite Nat.mul_comm; apply Nat.Div0.mul_div_le).
  rewrite length_take, Nat.min_l by done.
  rewrite py_range_multiple by done.
  destruct HW as [HW|HW].
  - pose proof (run_batches_blocks (take (n * batch_size) words) batch_size
      window_size rand HW n 0) as Hrun. simpl in Hrun.
    rewrite Hrun by (rewrite length_take; lia). f_equal.
    apply list_fmap_ext. intros i k Hk. apply lookup_seq in Hk as [-> Hk].
    unfold nth_batch. rewrite block_take by nia. done.
  - replace n with 0 by (unfold n; rewrite Nat.div_small; lia). done.
Qed.

(** Without a radius to draw, the first center raises. *)
Lemma get_batches_no_window words batch_size rand :
  0 < batch_size → batch_size ≤ length words →
  get_batches words batch_size 0 rand = ([], Some ValueError).
Proof.
  intros HB HN. unfold get_batches. rewrite decide_False by lia.
  set (n := length words / batch_size).
  assert (n * batch_size ≤ length words) as Hn
    by (unfold n; rewrite Nat.mul_comm; apply Nat.Div0.mul_div_le).
  assert (0 < n) as Hpos by (unfold n; apply Nat.div_str_pos; lia).
  rewrite length_take, Nat.min_l by done.
  rewrite py_range_multiple by done.
  destruct n as [|n]; [lia|]. simpl.
  rewrite length_slice by (rewrite length_take; lia).
  destruct batch_size as [|b]; [lia|]. simpl.
  destruct (slice _ 0 (S b) !! 0) eqn:Hs; [done|].
  rewrite lookup_slice in Hs. rewrite decide_True in Hs by lia.
  apply lookup_ge_None in Hs. rewrite length_take in Hs. lia.
Qed.

(** What a yielded batch is. *)
Lemma get_batches_yield words batch_size window_size rand k b :
  (get_batches words batch_size window_size rand).1 !! k = Some b →
  0 < batch_size ∧ 0 < window_size ∧ k < length words / batch_size ∧
  b = nth_batch words batch_size window_size rand k.
Proof.
  intros Hb.
  destruct (decide (batch_size = 0)) as [->|HB].
  { unfold get_batches in Hb. done. }
  destruct (decide (0 < window_size ∨ length words < batch_size)) as [HW|HW].
  - rewrite get_batches_blocks in Hb by (done || lia). simpl in Hb.
    rewrite list_lookup_fmap in Hb.
    destruct (seq _ _ !! k) as [k'|] eqn:Hk; [|done].
    apply lookup_seq in Hk as [-> Hk]. simpl in Hb.
    destruct HW as [HW|HW].
    + repeat split; [lia|done|done|congruence].
    + rewrite Nat.div_small in Hk by done. lia.
  - replace window_size with 0 in Hb by lia.
    rewrite get_batches_no_window in Hb by lia. done.
Qed.

End batch_facts.

(** ** The shape of a batch *)

Section pair_facts.
Import Batches.

Lemma elem_of_concat {A} (x : A) (ls : list (list A)) :
  x ∈ concat ls ↔ ∃ l, x ∈ l ∧ l ∈ ls.
Proof.
  induction ls as [|l ls IH]; simpl.
  - split; [by intros ?%elem_of_nil|by intros (? & _ & ?%elem_of_nil)].
  - rewrite elem_of_app, IH. split.
    + intros [?|(l' & ? & ?)]; [exists l|exists l']; split; try done; by constructor.
    + intros (l' & Hx & [->|?]%elem_of_cons); [by left|right; by exists l'].
Qed.

Lemma zip_replicate_l {A B} (c : A) (t : list B) :
  zip (replicate (length t) c) t = (λ b, (c, b)) <$> t.
Proof. induction t as [|b t IH]; simpl; [done|by rewrite IH]. Qed.

(** Centers and contexts, zipped, are each center with each of its targets. *)
Lemma zip_centers_contexts {A B} (batch : list A) (ts : list (list B)) :
  zip (concat (zip_with (λ c t, replicate (length t) c) batch ts)) (concat ts) =
  concat (zip_with (λ c t, (λ b, (c, b)) <$> t) batch ts).
Proof.
  revert ts. induction batch as [|c batch IH]; intros [|t ts]; simpl; try done.
  rewrite zip_with_app by (by rewrite length_replicate).
  by rewrite IH, zip_replicate_l.
Qed.

Lemma length_centers_contexts {A B} (batch : list A) (ts : list (list B)) :
  length batch = length ts →
  length (concat (zip_with (λ c t, replicate (length t) c) batch ts)) =
  length (concat ts).
Proof.
  revert ts. induction batch as [|c batch IH]; intros [|t ts] Hlen; simpl in *; try done.
  rewrite !length_app, length_replicate, IH by lia. done.
Qed.

(** A pair of a batch joins two different positions of the block, at most
    a radius apart. *)
Lemma elem_of_batch_pairs batch R c t :
  (c, t) ∈ zip (batch_pairs batch R).1 (batch_pairs batch R).2 →
  ∃ i j, i ≠ j ∧ i - R i ≤ j ≤ i + R i ∧
         batch !! i = Some c ∧ batch !! j = Some t.
Proof.
  unfold batch_pairs, block_targets. simpl. rewrite zip_centers_contexts. intros Hin.
  apply elem_of_concat in Hin as (l & Hct & Hl).
  apply list_elem_of_lookup in Hl as [i Hl].
  rewrite lookup_zip_with in Hl.
  destruct (batch !! i) as [c'|] eqn:Hc; [|done]. simpl in Hl.
  rewrite list_lookup_fmap in Hl.
  destruct (seq _ _ !! i) as [i'|] eqn:Hi; [|done].
  apply lookup_seq in Hi as [-> _]. simpl in Hl. injection Hl as <-.
  apply list_elem_of_fmap in Hct as (t' & [= -> ->] & Ht).
  apply elem_of_target_words, elem_of_window in Ht as (j & Hj & Hne & Hr).
  exists i, j. done.
Qed.

Lemma NoDup_block words batch_size k : NoDup words → NoDup (block words batch_size k).
Proof.
  intros Hnd. unfold block, slice.
  eapply sublist_NoDup; [done|].
  etrans; [apply sublist_take|apply sublist_drop].
Qed.

End pair_facts.

(** ** The batch generator: claims *)

Example get_batches_pairs :
  Batches.get_batches [1; 2; 3; 4; 5]%Z 2 1 (λ _, 0) =
  ([([1; 2]%Z, [2; 1]%Z); ([3; 4]%Z, [4; 3]%Z)], None).
Proof. vm_compute. reflexivity. Qed.

Example get_batches_uniform :
  Batches.get_batches [5; 5; 5; 5; 5]%Z 5 1 (λ _, 0) =
  ([([5; 5; 5; 5; 5]%Z, [5; 5; 5; 5; 5]%Z)], None).
Proof. vm_compute. reflexivity. Qed.

Example get_batches_zero_batch_size :
  Batches.get_batches [1; 2; 3]%Z 0 5 (λ _, 0) = ([], Some ZeroDivisionError).
Proof. reflexivity. Qed.

(** C1, as stated, fails: on [[5,5,5,5,5]] with window size 1 every center
    5 is paired with the context 5 found next to it. *)
Lemma uniform_sequence_self_pairs :
  ¬ Batches.no_self_pair [5; 5; 5; 5; 5]%Z 5 1 (λ _, 0).
Proof.
  intros Hno.
  apply (Hno [5; 5; 5; 5; 5]%Z [5; 5; 5; 5; 5]%Z 5%Z 5%Z); [| |done].
  - rewrite get_batches_uniform. simpl. apply list_elem_of_here.
  - simpl. apply list_elem_of_here.
Qed.

(** C1, amended.  Every emitted pair joins two different positions of its
    block, the context at most a window away from the center: the position
    of the center is never its own context.  The two tokens are equal only
    when the token occurs at both positions, so a sequence without
    repeated tokens yields no pair with center equal to context. *)
Theorem pairs_join_distinct_positions (words : list Z) (batch_size window_size : nat)
    (rand : nat → nat) (k : nat) (x y : list Z) (c t : Z) :
  (Batches.get_batches words batch_size window_size rand).1 !! k = Some (x, y) →
  (c, t) ∈ zip x y →
  (∃ i j, i ≠ j ∧ i - window_size ≤ j ≤ i + window_size ∧
          Batches.block words batch_size k !! i = Some c ∧
          Batches.block words batch_size k !! j = Some t) ∧
  (NoDup words → c ≠ t).
Proof.
  intros Hb Hct.
  apply get_batches_yield in Hb as (HB & HW & Hk & Hxy).
  unfold Batches.nth_batch in Hxy.
  assert (x = (Batches.batch_pairs (Batches.block words batch_size k)
                 (Batches.batch_radius batch_size window_size rand k)).1) as Hx
    by (by rewrite <- Hxy).
  assert (y = (Batches.batch_pairs (Batches.block words batch_size k)
                 (Batches.batch_radius batch_size window_size rand k)).2) as Hy
    by (by rewrite <- Hxy).
  subst x y. apply elem_of_batch_pairs in Hct as (i & j & Hne & Hr & Hi & Hj).
  pose proof (drawn_radius_range window_size (rand (k * batch_size + i)) HW) as Hrange.
  unfold Batches.batch_radius in Hr.
  split.
  - exists i, j. split; [done|]. split; [lia|done].
  - intros Hnd ->. apply (NoDup_block _ batch_size k) in Hnd.
    apply Hne. by eapply NoDup_lookup.
Qed.

Lemma pairs_join_distinct_positions_witness :
  (∃ i j, i ≠ j ∧ i - 1 ≤ j ≤ i + 1 ∧
          Batches.block [1; 2; 3; 4; 5]%Z 2 1 !! i = Some 3%Z ∧
          Batches.block [1; 2; 3; 4; 5]%Z 2 1 !! j = Some 4%Z) ∧
  (NoDup [1; 2; 3; 4; 5]%Z → 3%Z ≠ 4%Z).
Proof.
  apply (pairs_join_distinct_positions [1; 2; 3; 4; 5]%Z 2 1 (λ _, 0) 1
           [3; 4]%Z [4; 3]%Z 3%Z 4%Z).
  - vm_compute. reflexivity.
  - simpl. apply list_elem_of_here.
Defined.

(** C7.  A yielded batch is two flat lists of equal length: the contexts
    are the target lists of the block's positions, in order, and the
    centers repeat each center token once per target of its position, so
    that the two lists, read side by side, pair each center with each of
    its targets. *)
Theorem batch_rows_aligned (words : list Z) (batch_size window_size : nat)
    (rand : nat → nat) (k : nat) (x y : list Z) :
  (Batches.get_batches words batch_size window_size rand).1 !! k = Some (x, y) →
  let batch := Batches.block words batch_size k in
  let ts := Batches.block_targets batch (Batches.batch_radius batch_size window_size rand k) in
  length x = length y ∧
  length ts = length batch ∧
  y = concat ts ∧
  x = concat (zip_with (λ c t, replicate (length t) c) batch ts) ∧
  zip x y = concat (zip_with (λ c t, (λ b, (c, b)) <$> t) batch ts).
Proof.
  intros Hb batch ts.
  apply get_batches_yield in Hb as (HB & HW & Hk & Hxy).
  unfold Batches.nth_batch, Batches.batch_pairs in Hxy.
  fold batch in Hxy. fold ts in Hxy. injection Hxy as -> ->.
  assert (length ts = length batch) as Hts
    by (unfold ts, Batches.block_targets; by rewrite length_fmap, length_seq).
  split; [by apply length_centers_contexts|].
  repeat split; [done|]. apply zip_centers_contexts.
Qed.

Lemma batch_rows_aligned_witness :
  let batch := Batches.block [1; 2; 3; 4; 5]%Z 2 1 in
  let ts := Batches.block_targets batch (Batches.batch_radius 2 1 (λ _, 0) 1) in
  length [3; 4]%Z = length [4; 3]%Z ∧
  length ts = length batch ∧
  [4; 3]%Z = concat ts ∧
  [3; 4]%Z = concat (zip_with (λ c t, replicate (length t) c) batch ts) ∧
  zip [3; 4]%Z [4; 3]%Z = concat (zip_with (λ c t, (λ b, (c, b)) <$> t) batch ts).
Proof.
  apply (batch_rows_aligned [1; 2; 3; 4; 5]%Z 2 1 (λ _, 0) 1 [3; 4]%Z [4; 3]%Z).
  vm_compute. reflexivity.
Defined.

Lemma concat_blocks words batch_size n :
  n * batch_size ≤ length words →
  concat (Batches.block words batch_size <$> seq 0 n) = take (n * batch_size) words.
Proof.
  intros Hn. induction n as [|n IH]; [done|].
  rewrite seq_S, fmap_app, concat_app, IH by lia. simpl.
  rewrite app_nil_r. unfold Batches.block, slice.
  replace (n * batch_size + batch_size - n * batch_size) with batch_size by lia.
  replace (batch_size + n * batch_size) with (n * batch_size + batch_size) by lia.
  by rewrite take_take_drop.
Qed.

(** C10.  For a positive batch size [B] (and a window size that leaves a
    radius to draw, or fewer than [B] tokens) the generator ends without an
    exception after exactly [N / B] batches; the [k]-th batch is built from
    the [B] consecutive tokens of positions [k*B .. k*B + B - 1]; these
    blocks together are the sequence without its last [N mod B] tokens; and
    with [N < B] nothing is yielded. *)
Theorem get_batches_count (words : list Z) (batch_size window_size : nat)
    (rand : nat → nat) :
  0 < batch_size →
  0 < window_size ∨ length words < batch_size →
  ∃ bs,
    Batches.get_batches words batch_size window_size rand = (bs, None) ∧
    length bs = length words / batch_size ∧
    (∀ k, k < length words / batch_size →
          length (Batches.block words batch_size k) = batch_size ∧
          (∀ i, Batches.block words batch_size k !! i =
                if decide (i < batch_size) then words !! (k * batch_size + i) else None) ∧
          bs !! k = Some (Batches.nth_batch words batch_size window_size rand k)) ∧
    concat (Batches.block words batch_size <$> seq 0 (length words / batch_size)) =
      take (length words - length words mod batch_size) words ∧
    (length words < batch_size → bs = []).
Proof.
  intros HB HW. eexists. split; [by apply get_batches_blocks|].
  assert (length words / batch_size * batch_size ≤ length words) as Hn
    by (rewrite Nat.mul_comm; apply Nat.Div0.mul_div_le).
  split; [by rewrite length_fmap, length_seq|]. split; [|split].
  - intros k Hk. split; [apply length_block; nia|]. split.
    + intros i. unfold Batches.block. rewrite lookup_slice.
      by replace (k * batch_size + batch_size - k * batch_size) with batch_size by lia.
    + rewrite list_lookup_fmap.
      by rewrite (proj2 (lookup_seq 0 _ k k)) by (split; [done|lia]).
  - rewrite concat_blocks by done. f_equal.
    pose proof (Nat.div_mod_eq (length words) batch_size). lia.
  - intros Hlt. by rewrite Nat.div_small.
Qed.

Lemma get_batches_count_witness :
  ∃ bs,
    Batches.get_batches [1; 2; 3; 4; 5; 6; 7]%Z 3 1 (λ _, 0) = (bs, None) ∧
    length bs = length [1; 2; 3; 4; 5; 6; 7]%Z / 3 ∧
    (∀ k, k < length [1; 2; 3; 4; 5; 6; 7]%Z / 3 →
          length (Batches.block [1; 2; 3; 4; 5; 6; 7]%Z 3 k) = 3 ∧
          (∀ i, Batches.block [1; 2; 3; 4; 5; 6; 7]%Z 3 k !! i =
                if decide (i < 3) then [1; 2; 3; 4; 5; 6; 7]%Z !! (k * 3 + i) else None) ∧
          bs !! k = Some (Batches.nth_batch [1; 2; 3; 4; 5; 6; 7]%Z 3 1 (λ _, 0) k)) ∧
    concat (Batches.block [1; 2; 3; 4; 5; 6; 7]%Z 3 <$> seq 0 (length [1; 2; 3; 4; 5; 6; 7]%Z / 3)) =
      take (length [1; 2; 3; 4; 5; 6; 7]%Z - length [1; 2; 3; 4; 5; 6; 7]%Z mod 3)
        [1; 2; 3; 4; 5; 6; 7]%Z ∧
    (length [1; 2; 3; 4; 5; 6; 7]%Z < 3 → bs = []).
Proof.
  apply (get_batches_count [1; 2; 3; 4; 5; 6; 7]%Z 3 1 (λ _, 0)).
  - lia.
  - left. lia.
Defined.

(** ** The tables of the subsampler *)

Section subsampler_facts.
Import Subsampler.

Lemma Counter_lookup words w :
  Counter words !! w =
  if decide (w ∈ words) then Some (count_occ Z.eq_dec words w) else None.
Proof.
  induction words as [|v rest IH]; [done|]. cbn [Counter].
  destruct (decide (v = w)) as [->|Hne].
  - rewrite lookup_insert_eq, IH, count_occ_cons_eq by done.
    rewrite (decide_True _ _ (list_elem_of_here w rest)).
    case_decide as Hin; simpl; [done|].
    rewrite list_elem_of_In in Hin.
    by rewrite (proj1 (count_occ_not_In Z.eq_dec rest w) Hin).
  - rewrite lookup_insert_ne, IH, count_occ_cons_neq by done.
    apply decide_ext. rewrite elem_of_cons.
    split; [by right|intros [?|?]; [by subst|done]].
Qed.

Lemma count_occ_pos words w : w ∈ words → 0 < count_occ Z.eq_dec words w.
Proof. rewrite list_elem_of_In. apply count_occ_In. Qed.

Lemma frequency_pos words w : w ∈ words → (0 < frequency words w)%R.
Proof.
  intros Hin. unfold frequency. apply Rdiv_lt_0_compat.
  - apply lt_0_INR. by apply count_occ_pos.
  - apply lt_0_INR. destruct words; [by apply elem_of_nil in Hin|simpl; lia].
Qed.

(** A comprehension whose body raises on no item of the dict. *)
Lemma comprehend_lookup {V W} (f : Z → V → result W) (g : Z → V → W) items acc :
  (∀ k v, (k, v) ∈ items → f k v = Ok (g k v)) →
  NoDup items.*1 →
  ∃ r, comprehend f items acc = Ok r ∧
       ∀ k, r !! k = match (list_to_map items : gmap Z V) !! k with
                     | Some v => Some (g k v)
                     | None => acc !! k
                     end.
Proof.
  revert acc. induction items as [|[k0 v0] items IH]; intros acc Hf Hnd; simpl.
  - exists acc. split; [done|]. intros k. by rewrite lookup_empty.
  - rewrite (Hf k0 v0) by apply list_elem_of_here. simpl.
    apply NoDup_cons in Hnd as [Hk0 Hnd].
    destruct (IH (<[k0 := g k0 v0]> acc)) as (r & Hr & Hlook); [|done|].
    { intros k v Hin. apply Hf. by apply list_elem_of_further. }
    exists r. split; [done|]. intros k. rewrite Hlook.
    destruct (decide (k = k0)) as [->|Hne].
    + rewrite (not_elem_of_list_to_map_1 _ _ Hk0).
      by rewrite !lookup_insert_eq.
    + by rewrite !lookup_insert_ne.
Qed.

Lemma dict_comp_lookup {V W} (f : Z → V → result W) (g : Z → V → W) (d : gmap Z V) :
  (∀ k v, d !! k = Some v → f k v = Ok (g k v)) →
  ∃ r, dict_comp f d = Ok r ∧ ∀ k, r !! k = g k <$> d !! k.
Proof.
  intros Hf. unfold dict_comp.
  destruct (comprehend_lookup f g (map_to_list d) ∅) as (r & Hr & Hlook).
  - intros k v Hin. apply Hf. by apply elem_of_map_to_list.
  - apply NoDup_fst_map_to_list.
  - exists r. split; [done|]. intros k.
    rewrite Hlook, list_to_map_to_list. destruct (d !! k); [done|apply lookup_empty].
Qed.

(** [freqs] holds the frequency of every token of the corpus. *)
Lemma freqs_table words :
  ∃ fq, freqs words = Ok fq ∧
        ∀ w, fq !! w = if decide (w ∈ words) then Some (frequency words w) else None.
Proof.
  unfold freqs.
  destruct (dict_comp_lookup
    (λ (_ : Z) (count : nat), truediv (INR count) (INR (length words)))
    (λ (_ : Z) (count : nat), (INR count / INR (length words))%R)
    (Counter words)) as (fq & Hfq & Hlook).
  - intros k v Hk. unfold truediv.
    destruct (Req_dec_T (INR (length words)) 0) as [Hz|]; [|done].
    rewrite Counter_lookup in Hk. case_decide as Hin; [|done].
    destruct words; [by apply elem_of_nil in Hin|].
    apply (INR_eq _ 0) in Hz. done.
  - exists fq. split; [done|]. intros w.
    rewrite Hlook, Counter_lookup. by case_decide.
Qed.

(** [p_drop] holds the drop probability of every token of the corpus. *)
Lemma p_drop_table words t fq :
  (∀ w, fq !! w = if decide (w ∈ words) then Some (frequency words w) else None) →
  ∃ pd, p_drop words t fq = Ok pd ∧
        ∀ w, pd !! w =
             if decide (w ∈ words) then Some (drop_probability words t w) else None.
Proof.
  intros Hfq. unfold p_drop.
  destruct (dict_comp_lookup
    (λ (word : Z) (_ : nat), f ← getitem fq word; q ← truediv t f; Ok (1 - sqrt q)%R)
    (λ (word : Z) (_ : nat), drop_probability words t word)
    (Counter words)) as (pd & Hpd & Hlook).
  - intros k v Hk. rewrite Counter_lookup in Hk. case_decide as Hin; [|done].
    unfold getitem. rewrite Hfq, decide_True by done. simpl.
    unfold truediv. destruct (Req_dec_T (frequency words k) 0) as [Hz|]; [|done].
    pose proof (frequency_pos words k Hin). lra.
  - exists pd. split; [done|]. intros w.
    rewrite Hlook, Counter_lookup. by case_decide.
Qed.

(** The filter keeps the occurrences whose draw is above the drop
    probability of their token. *)
Lemma keep_words_retained pd p draw words :
  (∀ w, w ∈ words → pd !! w = Some (p w)) →
  ∀ k, keep_words pd draw k words = Ok (retained keep_if_above p draw k words).
Proof.
  induction words as [|w rest IH]; intros Hpd k; simpl; [done|].
  unfold getitem. rewrite Hpd by apply list_elem_of_here. simpl.
  rewrite IH by (intros; apply Hpd; by apply list_elem_of_further). simpl.
  unfold keep_if_above. by destruct (Rlt_dec (p w) (draw k)).
Qed.

Lemma subsampling_retained words t draw :
  subsampling words t draw =
  Ok (retained keep_if_above (drop_probability words t) draw 0 words).
Proof.
  unfold subsampling.
  destruct (freqs_table words) as (fq & -> & Hfq). simpl.
  destruct (p_drop_table words t fq Hfq) as (pd & -> & Hpd). simpl.
  apply keep_words_retained. intros w Hin. by rewrite Hpd, decide_True.
Qed.

(** The closed form grows with the frequency. *)
Lemma drop_probability_le (t f1 f2 : R) :
  (0 <= t)%R → (0 < f1)%R → (f1 <= f2)%R →
  (1 - sqrt (t / f1) <= 1 - sqrt (t / f2))%R.
Proof.
  intros Ht Hf1 Hf. apply Rplus_le_compat_l, Ropp_le_contravar, sqrt_le_1_alt.
  unfold Rdiv. apply Rmult_le_compat_l; [done|].
  apply Rinv_le_contravar; done.
Qed.

End subsampler_facts.

(** ** The subsampler: claims *)

(** C8.  For a threshold [t >= 0], of two tokens of the sequence the one
    with the higher frequency has an equal or higher entry in [p_drop]. *)
Theorem drop_probability_monotone (words : list Z) (t : R) (w1 w2 : Z) :
  (0 <= t)%R → w1 ∈ words → w2 ∈ words →
  (Subsampler.frequency words w1 <= Subsampler.frequency words w2)%R →
  ∃ fq pd p1 p2,
    Subsampler.freqs words = Ok fq ∧
    fq !! w1 = Some (Subsampler.frequency words w1) ∧
    fq !! w2 = Some (Subsampler.frequency words w2) ∧
    Subsampler.p_drop words t fq = Ok pd ∧
    pd !! w1 = Some p1 ∧ pd !! w2 = Some p2 ∧
    p1 = (1 - sqrt (t / Subsampler.frequency words w1))%R ∧
    p2 = (1 - sqrt (t / Subsampler.frequency words w2))%R ∧
    (p1 <= p2)%R.
Proof.
  intros Ht H1 H2 Hf.
  destruct (freqs_table words) as (fq & Hfq & Hfql).
  destruct (p_drop_table words t fq Hfql) as (pd & Hpd & Hpdl).
  exists fq, pd, (Subsampler.drop_probability words t w1),
    (Subsampler.drop_probability words t w2).
  rewrite !Hfql, !Hpdl, !decide_True by done.
  repeat split; try done.
  apply drop_probability_le; [done| |done]. by apply frequency_pos.
Qed.

Lemma drop_probability_monotone_witness :
  ∃ fq pd p1 p2,
    Subsampler.freqs [1; 1; 2]%Z = Ok fq ∧
    fq !! 2%Z = Some (Subsampler.frequency [1; 1; 2]%Z 2) ∧
    fq !! 1%Z = Some (Subsampler.frequency [1; 1; 2]%Z 1) ∧
    Subsampler.p_drop [1; 1; 2]%Z (/ 4) fq = Ok pd ∧
    pd !! 2%Z = Some p1 ∧ pd !! 1%Z = Some p2 ∧
    p1 = (1 - sqrt (/ 4 / Subsampler.frequency [1; 1; 2]%Z 2))%R ∧
    p2 = (1 - sqrt (/ 4 / Subsampler.frequency [1; 1; 2]%Z 1))%R ∧
    (p1 <= p2)%R.
Proof.
  apply (drop_probability_monotone [1; 1; 2]%Z (/ 4) 2%Z 1%Z).
  - lra.
  - apply list_elem_of_further, list_elem_of_further, list_elem_of_here.
  - apply list_elem_of_here.
  - unfold Subsampler.frequency. simpl. lra.
Defined.

(** C9.  On every input each token of the sequence has a positive count in
    the [Counter] and a positive frequency in [freqs], both lookups of the
    comprehensions are defined for it, and the subsampler returns: no
    division by zero and no missing key. *)
Theorem subsampling_never_raises (words : list Z) (t : R) (draw : nat → R) :
  (∀ w, w ∈ words → ∃ c, Subsampler.Counter words !! w = Some c ∧ 0 < c) ∧
  ∃ fq pd out,
    Subsampler.freqs words = Ok fq ∧
    Subsampler.p_drop words t fq = Ok pd ∧
    Subsampler.subsampling words t draw = Ok out ∧
    ∀ w, w ∈ words →
      ∃ f p q, fq !! w = Some f ∧ (0 < f)%R ∧
               Subsampler.truediv t f = Ok q ∧
               getitem fq w = Ok f ∧ getitem pd w = Ok p.
Proof.
  split.
  - intros w Hin. rewrite Counter_lookup, decide_True by done.
    eexists. split; [done|]. by apply count_occ_pos.
  - destruct (freqs_table words) as (fq & Hfq & Hfql).
    destruct (p_drop_table words t fq Hfql) as (pd & Hpd & Hpdl).
    exists fq, pd. eexists. split; [done|]. split; [done|].
    split; [apply subsampling_retained|].
    intros w Hin. pose proof (frequency_pos words w Hin) as Hpos.
    exists (Subsampler.frequency words w), (Subsampler.drop_probability words t w),
      (t / Subsampler.frequency words w)%R.
    unfold getitem. rewrite Hfql, Hpdl, !decide_True by done.
    repeat split; try done.
    unfold Subsampler.truediv.
    destruct (Req_dec_T (Subsampler.frequency words w) 0); [lra|done].
Qed.

(** ** The vocabulary save cell: claims *)

Lemma save_vocabulary_fresh (fs : gmap string Vocabulary.file) v2i i2v dim sampled :
  fs !! Vocabulary.dictionary_path dim sampled = None →
  Vocabulary.artifact_written
    (Vocabulary.save_vocabulary fs v2i i2v dim sampled).1
    (Vocabulary.save_vocabulary fs v2i i2v dim sampled).2 v2i i2v dim sampled.
Proof.
  intros Hnone. unfold Vocabulary.save_vocabulary, Vocabulary.artifact_written.
  rewrite decide_False by (rewrite Hnone; by intros [? ?]).
  simpl. by rewrite lookup_insert_eq.
Qed.

(** C5 fails on the code when the file is already there: the cell removes
    it and, the dump being in the [else] branch, writes nothing, so that no
    artifact is left after the run. *)
Theorem save_vocabulary_existing_file (fs : gmap string Vocabulary.file)
    (v2i : gmap string Z) (i2v : gmap Z string) (dim sampled : Z) :
  is_Some (fs !! Vocabulary.dictionary_path dim sampled) →
  Vocabulary.save_vocabulary fs v2i i2v dim sampled =
    (delete (Vocabulary.dictionary_path dim sampled) fs,
     [Vocabulary.Removed (Vocabulary.dictionary_path dim sampled)]) ∧
  (Vocabulary.save_vocabulary fs v2i i2v dim sampled).1
    !! Vocabulary.dictionary_path dim sampled = None ∧
  Vocabulary.dumps (Vocabulary.save_vocabulary fs v2i i2v dim sampled).2 = [] ∧
  ¬ Vocabulary.artifact_written
      (Vocabulary.save_vocabulary fs v2i i2v dim sampled).1
      (Vocabulary.save_vocabulary fs v2i i2v dim sampled).2 v2i i2v dim sampled.
Proof.
  intros Hsome. unfold Vocabulary.save_vocabulary, Vocabulary.artifact_written.
  rewrite decide_True by done. simpl. rewrite lookup_delete_eq.
  repeat split; try done. by intros [? _].
Qed.

Example dictionary_path_default :
  Vocabulary.dictionary_path 300 100 = "model_data_300_100.cpkt".
Proof. vm_compute. reflexivity. Qed.

Lemma save_vocabulary_existing_file_witness :
  let fs : gmap string Vocabulary.file :=
    {[ "model_data_300_100.cpkt" := Vocabulary.Bytes "stale" ]} in
  Vocabulary.save_vocabulary fs ∅ ∅ 300 100 =
    (delete (Vocabulary.dictionary_path 300 100) fs,
     [Vocabulary.Removed (Vocabulary.dictionary_path 300 100)]) ∧
  (Vocabulary.save_vocabulary fs ∅ ∅ 300 100).1
    !! Vocabulary.dictionary_path 300 100 = None ∧
  Vocabulary.dumps (Vocabulary.save_vocabulary fs ∅ ∅ 300 100).2 = [] ∧
  ¬ Vocabulary.artifact_written
      (Vocabulary.save_vocabulary fs ∅ ∅ 300 100).1
      (Vocabulary.save_vocabulary fs ∅ ∅ 300 100).2 ∅ ∅ 300 100.
Proof.
  apply (save_vocabulary_existing_file
           {[ "model_data_300_100.cpkt" := Vocabulary.Bytes "stale" ]} ∅ ∅ 300 100).
  exists (Vocabulary.Bytes "stale"). vm_compute. reflexivity.
Defined.

(** ** The nearest-neighbour lookup *)

Section validator_facts.
Import Validator.
Context {F : Type} `{Scalar F}.

Lemma embedding_lookup_rows (params : list (list F)) ids vs :
  embedding_lookup params ids = Ok vs →
  ∀ i q, ids !! i = Some q → ∃ v, params !! q = Some v ∧ vs !! i = Some v.
Proof.
  revert vs. induction ids as [|q0 ids IH]; intros vs Hvs i q Hi; [done|].
  simpl in Hvs. destruct (params !! q0) as [v0|] eqn:Hq0; [|done].
  destruct (embedding_lookup params ids) as [vs'|] eqn:Hrest; [|done].
  simpl in Hvs. injection Hvs as <-.
  destruct i as [|i]; simpl in *.
  - injection Hi as <-. by exists v0.
  - by apply (IH vs').
Qed.

(** A row of similarities has one entry per row of the table, and a
    query that [validate] accepts is an id of the table. *)
Lemma validate_row (embeddings : list (list F)) int_codes sim i q row :
  validate embeddings int_codes = Ok sim →
  int_codes !! i = Some q → sim !! i = Some row →
  length row = length embeddings ∧ q < length embeddings.
Proof.
  unfold validate. intros Hsim Hq Hrow.
  destruct (embedding_lookup _ _) as [vs|] eqn:Hvs; [|done].
  simpl in Hsim. injection Hsim as <-.
  destruct (embedding_lookup_rows _ _ _ Hvs i q Hq) as (v & Hv & Hvi).
  unfold matmul_transpose in Hrow. rewrite list_lookup_fmap, Hvi in Hrow.
  simpl in Hrow. injection Hrow as <-.
  apply lookup_lt_Some in Hv. unfold normalize in *.
  rewrite !length_fmap in *. done.
Qed.

Lemma slice_sublist {A} (l : list A) a b : slice l a b `sublist_of` l.
Proof. unfold slice. etrans; [apply sublist_take|apply sublist_drop]. Qed.

(** Skipping the first rank of a ranking without repetition leaves it out. *)
Lemma first_rank_skipped (p : list nat) top_k r :
  NoDup p → p !! 0 = Some r → r ∉ slice p 1 (top_k + 1).
Proof.
  intros Hnd Hr. destruct p as [|r' rest]; [done|].
  injection Hr as ->. apply NoDup_cons in Hnd as [Hnotin _].
  unfold slice. simpl. intros Hin. apply Hnotin.
  by apply (sublist_subseteq _ _ (sublist_take _ _)) in Hin.
Qed.

(** An entry strictly below all the others is ranked first. *)
Lemma least_entry_first (row : list F) (p : list nat) q :
  is_argsort row p → q < length row →
  (∀ j x y, j ≠ q → row !! q = Some x → row !! j = Some y → fltb x y = true) →
  p !! 0 = Some q.
Proof.
  intros [Hperm Hsorted] Hq Hleast.
  assert (q ∈ p) as Hin
    by (rewrite Hperm; apply elem_of_seq; lia).
  destruct p as [|r rest]; [by apply elem_of_nil in Hin|].
  simpl. f_equal. destruct (decide (r = q)) as [|Hne]; [done|exfalso].
  apply elem_of_cons in Hin as [->|Hin]; [done|].
  apply StronglySorted_inv in Hsorted as [_ Hall].
  rewrite Forall_forall in Hall. specialize (Hall q Hin).
  assert (r < length row) as Hr.
  { assert (r ∈ seq 0 (length row)) as Hrs
      by (rewrite <- Hperm; apply list_elem_of_here).
    apply elem_of_seq in Hrs. lia. }
  destruct (lookup_lt_is_Some_2 row q Hq) as [x Hx].
  destruct (lookup_lt_is_Some_2 row r Hr) as [y Hy].
  unfold not_less in Hall. rewrite Hy, Hx in Hall.
  rewrite (Hleast r x y Hne Hx Hy) in Hall. done.
Qed.

End validator_facts.

Example validate_duplicate_rows :
  Validator.validate [[PrimFloat.one]; [PrimFloat.one]] [0; 1] =
  Ok [[PrimFloat.one; PrimFloat.one]; [PrimFloat.one; PrimFloat.one]].
Proof. vm_compute. reflexivity. Qed.

(** C2, as stated, fails whatever order [argsort] gives to equal entries.
    In a table whose two rows are equal, the queries 0 and 1 get the same
    row of similarities, hence the same ranking; the id ranked second is
    listed as the nearest neighbour of both, and it is one of them. *)
Lemma duplicate_rows_list_the_query :
  ¬ ∃ argsort : list PrimFloat.float → list nat,
      (∀ row, argsort row ≡ₚ seq 0 (length row)) ∧
      Validator.query_excluded argsort.
Proof.
  intros (argsort & Hperm & Hex).
  pose proof (Hex _ _ 1 _ 0 0 _ validate_duplicate_rows eq_refl eq_refl) as H0.
  pose proof (Hex _ _ 1 _ 1 1 _ validate_duplicate_rows eq_refl eq_refl) as H1.
  unfold Validator.nearest in H0, H1.
  pose proof (Hperm (Validator.fneg <$> [PrimFloat.one; PrimFloat.one])) as Hp.
  simpl in Hp. symmetry in Hp.
  apply Permutation_length_2_inv in Hp as [Hp|Hp];
    simpl in H0, H1; rewrite Hp in H0, H1.
  - apply H1. apply list_elem_of_here.
  - apply H0. apply list_elem_of_here.
Qed.

(** C2, amended.  The lookup returns the ranks 1 to K of the ranking: ids of
    the table, none twice, and never the id ranked first.  The query is
    that id, and so is left out, when its entry is strictly the greatest of
    its row (strictly the least once negated). *)
Theorem nearest_skips_first_rank {F : Type} `{Validator.Scalar F}
    (argsort : list F → list nat) (embeddings : list (list F))
    (int_codes : list nat) (top_k : nat) (sim : list (list F)) (i q : nat)
    (row : list F) :
  Validator.validate embeddings int_codes = Ok sim →
  int_codes !! i = Some q → sim !! i = Some row →
  Validator.is_argsort (Validator.fneg <$> row) (argsort (Validator.fneg <$> row)) →
  let ranking := argsort (Validator.fneg <$> row) in
  let result := Validator.nearest argsort row top_k in
  NoDup result ∧
  (∀ j, j ∈ result → j < length embeddings) ∧
  (∀ r, ranking !! 0 = Some r → r ∉ result) ∧
  ((∀ j x y, j ≠ q → (Validator.fneg <$> row) !! q = Some x →
             (Validator.fneg <$> row) !! j = Some y → Validator.fltb x y = true) →
   ranking !! 0 = Some q ∧ q ∉ result).
Proof.
  intros Hsim Hq Hrow Hsort ranking result.
  destruct (validate_row _ _ _ _ _ _ Hsim Hq Hrow) as [Hlen Hlt].
  assert (NoDup ranking) as Hnd.
  { destruct Hsort as [Hperm _]. unfold ranking. rewrite Hperm. apply NoDup_seq. }
  split; [|split; [|split]].
  - eapply sublist_NoDup; [done|apply slice_sublist].
  - intros j Hj. apply (sublist_subseteq _ _ (slice_sublist _ _ _)) in Hj.
    destruct Hsort as [Hperm _]. rewrite Hperm in Hj.
    apply elem_of_seq in Hj. rewrite length_fmap in Hj. lia.
  - intros r Hr. by apply first_rank_skipped.
  - intros Hleast.
    assert (ranking !! 0 = Some q) as Hfirst.
    { apply (least_entry_first _ _ _ Hsort); [rewrite length_fmap; lia|done]. }
    split; [done|]. by apply first_rank_skipped.
Qed.

Lemma nearest_skips_first_rank_witness :
  let row := [PrimFloat.one; PrimFloat.opp PrimFloat.one] in
  let ranking := Validator.insertion_argsort (Validator.fneg <$> row) in
  let result := Validator.nearest Validator.insertion_argsort row 1 in
  NoDup result ∧
  (∀ j, j ∈ result → j < length [[PrimFloat.one]; [PrimFloat.opp PrimFloat.one]]) ∧
  (∀ r, ranking !! 0 = Some r → r ∉ result) ∧
  ((∀ j x y, j ≠ 0 → (Validator.fneg <$> row) !! 0 = Some x →
             (Validator.fneg <$> row) !! j = Some y → Validator.fltb x y = true) →
   ranking !! 0 = Some 0 ∧ 0 ∉ result).
Proof.
  apply (nearest_skips_first_rank Validator.insertion_argsort
           [[PrimFloat.one]; [PrimFloat.opp PrimFloat.one]] [0; 1] 1
           [[PrimFloat.one; PrimFloat.opp PrimFloat.one];
            [PrimFloat.opp PrimFloat.one; PrimFloat.one]] 0 0).
  - vm_compute. reflexivity.
  - reflexivity.
  - reflexivity.
  - split.
    + vm_compute. reflexivity.
    + vm_compute. repeat constructor.
Defined.

(** What [argsort] promises leaves the order of equal entries open: on a
    row of two equal similarities both rankings are results it may give.
    Which one NumPy's default sort gives is not decided by the notebooks. *)
Lemma equal_entries_either_order :
  Validator.is_argsort [PrimFloat.one; PrimFloat.one] [0; 1] ∧
  Validator.is_argsort [PrimFloat.one; PrimFloat.one] [1; 0].
Proof.
  split; (split; [|vm_compute; repeat constructor]).
  - reflexivity.
  - apply Permutation_swap.
Qed.

(** * Further properties of the notebooks' code *)

(** ** The batch generator: exceptions and sizes *)

(** X1.  [get_batches] raises [ZeroDivisionError] for a batch size of 0 and
    [ValueError], at its first center, for a window size of 0 when the
    sequence holds at least one full batch; in both cases nothing is
    yielded.  In every other case the iteration ends without exception. *)
Theorem get_batches_exception (words : list Z) (batch_size window_size : nat)
    (rand : nat → nat) :
  (Batches.get_batches words batch_size window_size rand).2 =
    (if decide (batch_size = 0) then Some ZeroDivisionError
     else if decide (window_size = 0 ∧ batch_size ≤ length words) then Some ValueError
     else None) ∧
  ((Batches.get_batches words batch_size window_size rand).2 ≠ None →
   (Batches.get_batches words batch_size window_size rand).1 = []).
Proof.
  destruct (decide (batch_size = 0)) as [->|HB]; [done|].
  destruct (decide (window_size = 0 ∧ batch_size ≤ length words)) as [[-> HN]|HW].
  - rewrite get_batches_no_window by lia. done.
  - rewrite get_batches_blocks by lia. done.
Qed.

Section size_facts.
Import Batches.

Lemma length_slice_le {A} (l : list A) a b : length (slice l a b) ≤ b - a.
Proof. unfold slice. rewrite length_take. lia. Qed.

Lemma length_target_words_le words idx R : length (target_words words idx R) ≤ 2 * R.
Proof.
  trans (length (window words idx R)).
  - apply submseteq_length, NoDup_submseteq; [apply NoDup_target_words|].
    intros w. by rewrite elem_of_target_words.
  - unfold window. rewrite length_app.
    pose proof (length_slice_le words
      (Z.to_nat (Z.max 0 (Z.of_nat idx - Z.of_nat R))) idx).
    pose proof (length_slice_le words (idx + 1) (idx + R + 1)). lia.
Qed.

(** In a block of two tokens or more every position has a neighbour. *)
Lemma target_words_nonempty batch i R :
  2 ≤ length batch → 0 < R → i < length batch →
  0 < length (target_words batch i R).
Proof.
  intros Hlen HR Hi.
  assert (∃ j w, batch !! j = Some w ∧ j ≠ i ∧ i - R ≤ j ≤ i + R) as (j & w & Hw & Hj).
  { destruct (decide (i + 1 < length batch)) as [Hnext|Hlast].
    - destruct (lookup_lt_is_Some_2 batch (i + 1) Hnext) as [w Hw].
      exists (i + 1), w. split; [done|lia].
    - destruct (lookup_lt_is_Some_2 batch (i - 1)) as [w Hw]; [lia|].
      exists (i - 1), w. split; [done|lia]. }
  assert (w ∈ target_words batch i R) as Hin
    by (apply elem_of_target_words, elem_of_window; eauto).
  destruct (target_words batch i R); [by apply elem_of_nil in Hin|simpl; lia].
Qed.

Lemma length_concat_bounds {A} (ts : list (list A)) a b :
  Forall (λ t, a ≤ length t ≤ b) ts →
  a * length ts ≤ length (concat ts) ≤ b * length ts.
Proof.
  induction 1 as [|t ts Ht _ IH]; simpl; [lia|]. rewrite length_app. lia.
Qed.

Lemma Forall_block_targets batch R (P : list Z → Prop) :
  (∀ i, i < length batch → P (target_words batch i (R i))) →
  Forall P (block_targets batch R).
Proof.
  intros HP. unfold block_targets. apply Forall_fmap, Forall_forall.
  intros i Hi. apply elem_of_seq in Hi. apply HP. lia.
Qed.

Lemma length_block_targets batch R : length (block_targets batch R) = length batch.
Proof. unfold block_targets. by rewrite length_fmap, length_seq. Qed.

End size_facts.

(** X2.  A batch holds at most [2 * window_size] pairs per center, and at least
    one per center as soon as the batch size is 2 or more. *)
Theorem batch_pair_count (words : list Z) (batch_size window_size : nat)
    (rand : nat → nat) (k : nat) (x y : list Z) :
  (Batches.get_batches words batch_size window_size rand).1 !! k = Some (x, y) →
  length (zip x y) ≤ 2 * window_size * batch_size ∧
  (2 ≤ batch_size → batch_size ≤ length (zip x y)).
Proof.
  intros Hb. apply get_batches_yield in Hb as (HB & HW & Hk & Hxy).
  unfold Batches.nth_batch, Batches.batch_pairs in Hxy. injection Hxy as -> ->.
  assert ((k + 1) * batch_size ≤ length words) as Hfull.
  { pose proof (Nat.Div0.mul_div_le (length words) batch_size). nia. }
  pose proof (length_block words batch_size k Hfull) as Hblock.
  rewrite length_zip_with, length_centers_contexts, Nat.min_id
    by (by rewrite length_block_targets).
  set (R := Batches.batch_radius batch_size window_size rand k).
  assert (∀ i, 1 ≤ R i ≤ window_size) as HR
    by (intros i; apply drawn_radius_range; done).
  split.
  - destruct (length_concat_bounds
      (Batches.block_targets (Batches.block words batch_size k) R) 0 (2 * window_size))
      as [_ Hub].
    { apply Forall_block_targets. intros i _.
      pose proof (length_target_words_le (Batches.block words batch_size k) i (R i)).
      specialize (HR i). lia. }
    rewrite length_block_targets, Hblock in Hub. lia.
  - intros H2.
    destruct (length_concat_bounds
      (Batches.block_targets (Batches.block words batch_size k) R) 1 (2 * window_size))
      as [Hlb _].
    { apply Forall_block_targets. intros i Hi.
      pose proof (length_target_words_le (Batches.block words batch_size k) i (R i)).
      pose proof (target_words_nonempty (Batches.block words batch_size k) i (R i)).
      specialize (HR i). lia. }
    rewrite length_block_targets, Hblock in Hlb. lia.
Qed.

Lemma batch_pair_count_witness :
  length (zip [3; 4]%Z [4; 3]%Z) ≤ 2 * 1 * 2 ∧
  (2 ≤ 2 → 2 ≤ length (zip [3; 4]%Z [4; 3]%Z)).
Proof.
  apply (batch_pair_count [1; 2; 3; 4; 5]%Z 2 1 (λ _, 0) 1 [3; 4]%Z [4; 3]%Z).
  vm_compute. reflexivity.
Defined.

(** X3.  With a batch size of 1 a window never leaves its one-token batch: the
    generator yields one batch per token, and every batch is empty. *)
Theorem single_token_batches (words : list Z) (window_size : nat) (rand : nat → nat) :
  0 < window_size →
  Batches.get_batches words 1 window_size rand =
  (replicate (length words) ([], []), None).
Proof.
  intros HW. rewrite get_batches_blocks by lia. f_equal.
  rewrite Nat.div_1_r. apply list_eq. intros k.
  rewrite list_lookup_fmap.
  destruct (decide (k < length words)) as [Hk|Hk].
  - rewrite (proj2 (lookup_seq 0 _ k k)) by (split; [done|lia]).
    rewrite lookup_replicate_2 by done. simpl. f_equal.
    unfold Batches.nth_batch, Batches.batch_pairs, Batches.block_targets.
    rewrite length_block by lia. simpl.
    set (t := Batches.target_words _ _ _).
    assert (t = []) as Ht0.
    { destruct t as [|w t'] eqn:Ht; [done|exfalso].
      assert (w ∈ t) as Hin by (rewrite Ht; apply list_elem_of_here).
      apply elem_of_target_words, elem_of_window in Hin as (j & Hj & Hne & _).
      apply lookup_lt_Some in Hj. rewrite length_block in Hj by lia. lia. }
    rewrite Ht0. by destruct (Batches.block words 1 k) as [|? [|? ?]].
  - assert (seq 0 (length words) !! k = None) as ->
      by (apply lookup_ge_None; rewrite length_seq; lia).
    symmetry. apply lookup_replicate_None. lia.
Qed.

Lemma single_token_batches_witness :
  Batches.get_batches [1; 2; 3]%Z 1 5 (λ _, 0) =
  (replicate (length [1; 2; 3]%Z) ([], []), None).
Proof. apply (single_token_batches [1; 2; 3]%Z 5 (λ _, 0)). lia. Defined.

(** ** The subsampler: what the filter keeps *)

Section retained_facts.
Import Subsampler.

Lemma retained_sublist keep p draw k words :
  retained keep p draw k words `sublist_of` words.
Proof.
  revert k. induction words as [|w rest IH]; intros k; simpl; [done|].
  destruct (keep (p w) (draw k)); [by apply sublist_skip|by apply sublist_cons].
Qed.

Lemma keep_if_above_true p u : keep_if_above p u = true ↔ (p < u)%R.
Proof. unfold keep_if_above. destruct (Rlt_dec p u); split; (done || lra). Qed.

Lemma keep_if_above_false p u : keep_if_above p u = false ↔ (u <= p)%R.
Proof. unfold keep_if_above. destruct (Rlt_dec p u); split; (done || lra). Qed.

Lemma retained_all p draw k words :
  (∀ w j, w ∈ words → (p w < draw j)%R) →
  retained keep_if_above p draw k words = words.
Proof.
  revert k. induction words as [|w rest IH]; intros k Hp; simpl; [done|].
  rewrite (proj2 (keep_if_above_true _ _)) by apply Hp, list_elem_of_here.
  f_equal. apply IH. intros w' j Hin. apply Hp. by apply list_elem_of_further.
Qed.

Lemma retained_none p draw k words :
  (∀ w j, w ∈ words → (draw j <= p w)%R) →
  retained keep_if_above p draw k words = [].
Proof.
  revert k. induction words as [|w rest IH]; intros k Hp; simpl; [done|].
  rewrite (proj2 (keep_if_above_false _ _)) by apply Hp, list_elem_of_here.
  apply IH. intros w' j Hin. apply Hp. by apply list_elem_of_further.
Qed.

Lemma retained_mono p p' draw draw' k words :
  (∀ w, w ∈ words → (p' w <= p w)%R) →
  (∀ j, (draw j <= draw' j)%R) →
  retained keep_if_above p draw k words `sublist_of`
  retained keep_if_above p' draw' k words.
Proof.
  revert k. induction words as [|w rest IH]; intros k Hp Hd; simpl; [done|].
  assert (retained keep_if_above p draw (S k) rest `sublist_of`
          retained keep_if_above p' draw' (S k) rest) as Hrest.
  { apply IH; [|done]. intros w' Hin. apply Hp. by apply list_elem_of_further. }
  destruct (keep_if_above (p w) (draw k)) eqn:Hk;
    destruct (keep_if_above (p' w) (draw' k)) eqn:Hk'.
  - by apply sublist_skip.
  - apply keep_if_above_true in Hk. apply keep_if_above_false in Hk'.
    pose proof (Hp w (list_elem_of_here _ _)). specialize (Hd k). lra.
  - by apply sublist_cons.
  - done.
Qed.

Lemma frequency_le_1 words w : w ∈ words → (frequency words w <= 1)%R.
Proof.
  intros Hin. unfold frequency.
  assert (0 < INR (length words))%R as Hlen.
  { apply lt_0_INR. destruct words; [by apply elem_of_nil in Hin|simpl; lia]. }
  apply (Rmult_le_reg_r (INR (length words))); [done|].
  unfold Rdiv. rewrite Rmult_assoc, Rinv_l, Rmult_1_r, Rmult_1_l by lra.
  apply le_INR, count_occ_bound.
Qed.

(** The drop probability is positive exactly above the threshold. *)
Lemma drop_probability_sign words t w :
  w ∈ words →
  (drop_probability words t w <= 0)%R ↔ (frequency words w <= t)%R.
Proof.
  intros Hin. pose proof (frequency_pos words w Hin) as Hf.
  unfold drop_probability. split.
  - intros Hp. destruct (Rle_dec (frequency words w) t) as [|Hn]; [done|exfalso].
    assert (t / frequency words w < 1)%R as Hq.
    { apply (Rmult_lt_reg_r (frequency words w)); [done|].
      unfold Rdiv. rewrite Rmult_assoc, Rinv_l by lra. lra. }
    destruct (Rle_dec 0 (t / frequency words w)) as [Hq0|Hq0].
    + pose proof (sqrt_lt_1_alt _ _ (conj Hq0 Hq)) as Hs. rewrite sqrt_1 in Hs. lra.
    + rewrite sqrt_neg_0 in Hp by lra. lra.
  - intros Hle.
    assert (1 <= t / frequency words w)%R as Hq.
    { apply (Rmult_le_reg_r (frequency words w)); [done|].
      unfold Rdiv. rewrite Rmult_assoc, Rinv_l by lra. lra. }
    pose proof (sqrt_le_1_alt _ _ Hq) as Hs. rewrite sqrt_1 in Hs. lra.
Qed.

End retained_facts.

(** X4.  The subsampler returns a sublist of its input: the tokens it keeps, in
    their order, nothing added; so its result is never longer than the
    input. *)
Theorem subsampling_sublist (words : list Z) (t : R) (draw : nat → R) :
  ∃ out, Subsampler.subsampling words t draw = Ok out ∧
         out `sublist_of` words ∧ length out ≤ length words.
Proof.
  eexists. split; [apply subsampling_retained|].
  split; [apply retained_sublist|apply sublist_length, retained_sublist].
Qed.

(** X5.  With a threshold at or above the frequency of every token, and draws
    above 0, the subsampler keeps the whole sequence. *)
Theorem subsampling_keeps_all (words : list Z) (t : R) (draw : nat → R) :
  (∀ k, (0 < draw k)%R) →
  (∀ w, w ∈ words → (Subsampler.frequency words w <= t)%R) →
  Subsampler.subsampling words t draw = Ok words.
Proof.
  intros Hd Ht. rewrite subsampling_retained. f_equal.
  apply retained_all. intros w j Hin.
  pose proof (proj2 (drop_probability_sign words t w Hin) (Ht w Hin)).
  specialize (Hd j). lra.
Qed.

Lemma subsampling_keeps_all_witness :
  Subsampler.subsampling [1; 1; 2]%Z 1 (λ _, (/ 2)%R) = Ok [1; 1; 2]%Z.
Proof.
  apply (subsampling_keeps_all [1; 1; 2]%Z 1 (λ _, (/ 2)%R)).
  - intros _. lra.
  - intros w Hin. by apply frequency_le_1.
Defined.

(** X6.  With a threshold of 0 every drop probability is 1: whatever the draws
    of [[0, 1)], the subsampler drops the whole sequence. *)
Theorem subsampling_zero_threshold (words : list Z) (draw : nat → R) :
  (∀ k, (draw k <= 1)%R) →
  Subsampler.subsampling words 0 draw = Ok [].
Proof.
  intros Hd. rewrite subsampling_retained. f_equal.
  apply retained_none. intros w j _. unfold Subsampler.drop_probability.
  unfold Rdiv. rewrite Rmult_0_l, sqrt_0. specialize (Hd j). lra.
Qed.

Lemma subsampling_zero_threshold_witness :
  Subsampler.subsampling [1; 1; 2]%Z 0 (λ _, (/ 2)%R) = Ok [].
Proof.
  apply (subsampling_zero_threshold [1; 1; 2]%Z (λ _, (/ 2)%R)).
  intros _. lra.
Defined.

(** X7.  Raising the threshold, or the draws, never drops an occurrence that
    was kept: the result for the lower threshold and draws is a sublist of
    the result for the higher ones. *)
Theorem subsampling_monotone (words : list Z) (t t' : R) (draw draw' : nat → R) :
  (0 <= t <= t')%R →
  (∀ k, (draw k <= draw' k)%R) →
  ∃ out out',
    Subsampler.subsampling words t draw = Ok out ∧
    Subsampler.subsampling words t' draw' = Ok out' ∧
    out `sublist_of` out'.
Proof.
  intros Ht Hd. do 2 eexists.
  split; [apply subsampling_retained|]. split; [apply subsampling_retained|].
  apply retained_mono; [|done]. intros w Hin.
  pose proof (frequency_pos words w Hin) as Hf.
  unfold Subsampler.drop_probability.
  apply Rplus_le_compat_l, Ropp_le_contravar, sqrt_le_1_alt.
  unfold Rdiv. apply Rmult_le_compat_r; [|lra].
  left. by apply Rinv_0_lt_compat.
Qed.

Lemma subsampling_monotone_witness :
  ∃ out out',
    Subsampler.subsampling [1; 1; 2]%Z (/ 4) (λ _, (/ 2)%R) = Ok out ∧
    Subsampler.subsampling [1; 1; 2]%Z 1 (λ _, 1%R) = Ok out' ∧
    out `sublist_of` out'.
Proof.
  apply (subsampling_monotone [1; 1; 2]%Z (/ 4) 1 (λ _, (/ 2)%R) (λ _, 1%R)).
  - lra.
  - intros _. lra.
Defined.

(** ** The vocabulary file across cells and notebooks *)

Section file_facts.
Import Vocabulary.

Lemma dictionary_path_not_restored dim sampled :
  dictionary_path dim sampled ≠ Restore.dictionary_file.
Proof. unfold dictionary_path, Restore.dictionary_file. simpl. discriminate. Qed.

Lemma save_vocabulary_frame (fs : gmap string file) v2i i2v dim sampled path :
  path ≠ dictionary_path dim sampled →
  (save_vocabulary fs v2i i2v dim sampled).1 !! path = fs !! path.
Proof.
  intros Hne. unfold save_vocabulary. case_decide; simpl.
  - by rewrite lookup_delete_ne.
  - by rewrite lookup_insert_ne.
Qed.

Lemma underscores_app s1 s2 :
  Restore.underscores (s1 +:+ s2) = Restore.underscores s1 + Restore.underscores s2.
Proof. induction s1 as [|c s1 IH]; simpl; [done|]. rewrite IH. lia. Qed.

End file_facts.

(** X9.  When no file of that name exists the save cell writes the artifact,
    once, and does nothing else: every other file is left as it was. *)
Theorem save_vocabulary_writes_once (fs : gmap string Vocabulary.file)
    (v2i : gmap string Z) (i2v : gmap Z string) (dim sampled : Z) :
  fs !! Vocabulary.dictionary_path dim sampled = None →
  Vocabulary.save_vocabulary fs v2i i2v dim sampled =
    (<[Vocabulary.dictionary_path dim sampled :=
         Vocabulary.Pickled (Vocabulary.Saved v2i i2v dim sampled)]> fs,
     [Vocabulary.Dumped (Vocabulary.dictionary_path dim sampled)
        (Vocabulary.Saved v2i i2v dim sampled)]) ∧
  Vocabulary.artifact_written
    (Vocabulary.save_vocabulary fs v2i i2v dim sampled).1
    (Vocabulary.save_vocabulary fs v2i i2v dim sampled).2 v2i i2v dim sampled ∧
  (∀ path, path ≠ Vocabulary.dictionary_path dim sampled →
     (Vocabulary.save_vocabulary fs v2i i2v dim sampled).1 !! path = fs !! path).
Proof.
  intros Hnone. split; [|split].
  - unfold Vocabulary.save_vocabulary.
    by rewrite decide_False by (rewrite Hnone; by intros [? ?]).
  - by apply save_vocabulary_fresh.
  - intros path Hne. by apply save_vocabulary_frame.
Qed.

Lemma save_vocabulary_writes_once_witness :
  Vocabulary.save_vocabulary ∅ ∅ ∅ 300 100 =
    (<[Vocabulary.dictionary_path 300 100 :=
         Vocabulary.Pickled (Vocabulary.Saved ∅ ∅ 300 100)]> ∅,
     [Vocabulary.Dumped (Vocabulary.dictionary_path 300 100)
        (Vocabulary.Saved ∅ ∅ 300 100)]) ∧
  Vocabulary.artifact_written
    (Vocabulary.save_vocabulary ∅ ∅ ∅ 300 100).1
    (Vocabulary.save_vocabulary ∅ ∅ ∅ 300 100).2 ∅ ∅ 300 100 ∧
  (∀ path, path ≠ Vocabulary.dictionary_path 300 100 →
     (Vocabulary.save_vocabulary ∅ ∅ ∅ 300 100).1 !! path =
     (∅ : gmap string Vocabulary.file) !! path).
Proof.
  apply (save_vocabulary_writes_once ∅ ∅ ∅ 300 100). apply lookup_empty.
Defined.

(** X10.  Running the save cell twice undoes or redoes its first run: over the
    two runs the artifact is written exactly once, it is in place at the
    end exactly when a file of that name existed before the first run, and
    every other file is left as it was. *)
Theorem save_vocabulary_twice (fs : gmap string Vocabulary.file)
    (v2i : gmap string Z) (i2v : gmap Z string) (dim sampled : Z) :
  let path := Vocabulary.dictionary_path dim sampled in
  let first := Vocabulary.save_vocabulary fs v2i i2v dim sampled in
  let second := Vocabulary.save_vocabulary first.1 v2i i2v dim sampled in
  second.1 !! path =
    (if decide (is_Some (fs !! path))
     then Some (Vocabulary.Pickled (Vocabulary.Saved v2i i2v dim sampled))
     else None) ∧
  Vocabulary.dumps (first.2 ++ second.2) =
    [(path, Vocabulary.Saved v2i i2v dim sampled)] ∧
  (∀ other, other ≠ path → second.1 !! other = fs !! other).
Proof.
  intros path first second. unfold second, first, Vocabulary.save_vocabulary.
  fold path. destruct (decide (is_Some (fs !! path))) as [Hsome|Hnone]; simpl.
  - rewrite decide_False by (rewrite lookup_delete_eq; by intros [? ?]). simpl.
    rewrite lookup_insert_eq. split; [done|]. split; [done|].
    intros other Hne. by rewrite lookup_insert_ne, lookup_delete_ne.
  - rewrite decide_True by (rewrite lookup_insert_eq; by eexists). simpl.
    rewrite lookup_delete_eq. split; [done|]. split; [done|].
    intros other Hne. by rewrite lookup_delete_ne, lookup_insert_ne.
Qed.

(** X11.  The restore notebook does not load what the save cell writes: it opens
    ['dictionary.cpkt'], a name the save cell never uses, so that it loads
    after the save cell exactly what it would have loaded before it (a
    [FileNotFoundError] when no such file was there). *)
Theorem load_vocabulary_ignores_save (fs : gmap string Vocabulary.file)
    (v2i : gmap string Z) (i2v : gmap Z string) (dim sampled : Z) :
  Vocabulary.dictionary_path dim sampled ≠ Restore.dictionary_file ∧
  Restore.load_vocabulary (Vocabulary.save_vocabulary fs v2i i2v dim sampled).1 =
  Restore.load_vocabulary fs.
Proof.
  split; [apply dictionary_path_not_restored|].
  unfold Restore.load_vocabulary. rewrite save_vocabulary_frame; [done|].
  intros Heq. by apply (dictionary_path_not_restored dim sampled).
Qed.

(** X12.  No checkpoint that the training loop saves has the path that the
    restore notebook restores: the saved path names the two
    hyperparameters and the epoch, the restored one only a number. *)
Theorem checkpoint_path_not_restored (embed_dim num_sampled epoch : Z) :
  Training.checkpoint_path embed_dim num_sampled epoch ≠ Restore.model_path.
Proof.
  intros Heq. apply (f_equal Restore.underscores) in Heq.
  unfold Training.checkpoint_path in Heq. rewrite !underscores_app in Heq.
  vm_compute (Restore.underscores Restore.model_path) in Heq.
  vm_compute (Restore.underscores "./checkpoints/word2vec_") in Heq.
  vm_compute (Restore.underscores "_") in Heq. lia.
Qed.

(** X13.  The encoding cell gives one id per word, the one [vocab_to_int] holds
    for it, and raises [KeyError] exactly when a word is not a key. *)
Theorem int_words_ids (vocab_to_int : gmap string Z) (words : list string) :
  match Preprocess.int_words vocab_to_int words with
  | Ok ids => Forall2 (λ w i, vocab_to_int !! w = Some i) words ids
  | Raise e => e = KeyError ∧ Exists (λ w, vocab_to_int !! w = None) words
  end.
Proof.
  induction words as [|w rest IH]; simpl; [by constructor|].
  unfold getitem. destruct (vocab_to_int !! w) as [i|] eqn:Hw; simpl.
  - destruct (Preprocess.int_words vocab_to_int rest) as [ids|e]; simpl.
    + by constructor.
    + destruct IH as [-> Hex]. split; [done|by apply Exists_cons_tl].
  - split; [done|by apply Exists_cons_hd].
Qed.

(** ** The similarity matrix and the printed neighbours *)

Section lookup_facts.
Import Validator Lookup.
Context {F : Type} `{Scalar F}.

Lemma embedding_lookup_ids (params : list (list F)) ids :
  match embedding_lookup params ids with
  | Ok vs => Forall2 (λ q v, params !! q = Some v) ids vs
  | Raise e => e = InvalidArgumentError ∧ Exists (λ q, length params ≤ q) ids
  end.
Proof.
  induction ids as [|q ids IH]; simpl; [by constructor|].
  destruct (params !! q) as [v|] eqn:Hq.
  - destruct (embedding_lookup params ids) as [vs|e]; simpl.
    + by constructor.
    + destruct IH as [-> Hex]. split; [done|by apply Exists_cons_tl].
  - split; [done|]. apply Exists_cons_hd. by apply lookup_ge_None.
Qed.

Lemma length_nearest (argsort : list F → list nat) row top_k :
  argsort (fneg <$> row) ≡ₚ seq 0 (length (fneg <$> row)) →
  length (nearest argsort row top_k) = top_k `min` (length row - 1).
Proof.
  intros Hperm. apply Permutation_length in Hperm.
  rewrite length_seq, length_fmap in Hperm.
  unfold nearest, slice. rewrite length_take, length_drop, Hperm. lia.
Qed.

Lemma elem_of_nearest (argsort : list F → list nat) row top_k id :
  argsort (fneg <$> row) ≡ₚ seq 0 (length (fneg <$> row)) →
  id ∈ nearest argsort row top_k → id < length row.
Proof.
  intros Hperm Hin. unfold nearest in Hin.
  apply (sublist_subseteq _ _ (slice_sublist _ _ _)) in Hin.
  rewrite Hperm in Hin. apply elem_of_seq in Hin.
  rewrite length_fmap in Hin. lia.
Qed.

Lemma log_neighbours_runs (int_to_vocab : gmap Z string) nearest ks log :
  Forall (λ k, k < length nearest) ks →
  Forall (λ id, is_Some (int_to_vocab !! Z.of_nat id)) nearest →
  ∃ line, log_neighbours int_to_vocab nearest ks log = Ok line.
Proof.
  intros Hks Hkeys. revert log.
  induction Hks as [|k ks Hk _ IH]; intros log; simpl; [by eexists|].
  destruct (lookup_lt_is_Some_2 nearest k Hk) as [id Hid].
  unfold index. rewrite Hid. simpl.
  rewrite Forall_forall in Hkeys.
  destruct (Hkeys id) as [word Hword]; [by eapply list_elem_of_lookup_2|].
  unfold getitem. rewrite Hword. simpl. apply IH.
Qed.

(** The loop prints one line per query when the table has more rows than
    neighbours are asked for and every id of the table is a key. *)
Lemma report_runs (argsort : list F → list nat) (int_to_vocab : gmap Z string)
    sample_examples (sim : list (list F)) top_k V queries :
  (∀ row, argsort row ≡ₚ seq 0 (length row)) →
  (∀ id, id < V → is_Some (int_to_vocab !! Z.of_nat id)) →
  length sim = length sample_examples →
  Forall (λ row, length row = V) sim →
  Forall (λ q, q < V) sample_examples →
  top_k < V →
  Forall (λ i, i < length sample_examples) queries →
  ∃ lines, report argsort int_to_vocab sample_examples sim top_k queries = (lines, None) ∧
           length lines = length queries.
Proof.
  intros Hperm Hkeys Hlen Hrows Hids Htop Hqueries.
  induction Hqueries as [|i queries Hi _ IH]; simpl; [by exists []|].
  destruct (lookup_lt_is_Some_2 sample_examples i Hi) as [q Hq].
  destruct (lookup_lt_is_Some_2 sim i) as [row Hrow]; [lia|].
  rewrite Forall_forall in Hids. rewrite Forall_forall in Hrows.
  pose proof (Hids q (list_elem_of_lookup_2 _ _ _ Hq)) as HqV.
  pose proof (Hrows row (list_elem_of_lookup_2 _ _ _ Hrow)) as HrowV.
  destruct (Hkeys q HqV) as [word Hword].
  destruct (log_neighbours_runs int_to_vocab (nearest argsort row top_k)
    (seq 0 top_k) ("Nearest to " +:+ word +:+ ":")) as [line Hline].
  { apply Forall_forall. intros k Hk. apply elem_of_seq in Hk.
    rewrite length_nearest by apply Hperm. lia. }
  { apply Forall_forall. intros id Hid. apply Hkeys.
    apply elem_of_nearest in Hid; [lia|apply Hperm]. }
  unfold nearest_line, index, getitem. rewrite Hq. simpl.
  rewrite Hword. simpl. rewrite Hrow. simpl. rewrite Hline.
  destruct IH as (lines & -> & Hlines). exists (line :: lines). simpl.
  split; [done|lia].
Qed.

(** [random.sample] gives [k] elements of the population, found at
    different positions of it. *)
Lemma pick_spec pool k raw j :
  k ≤ length pool →
  length (pick pool k raw j) = k ∧
  (∀ x, x ∈ pick pool k raw j → x ∈ pool) ∧
  (NoDup pool → NoDup (pick pool k raw j)).
Proof.
  revert pool j. induction k as [|k IH]; intros pool j Hk; simpl.
  { split; [done|]. split; [by intros ? ?%elem_of_nil|intros; constructor]. }
  destruct pool as [|p0 pool']; [simpl in Hk; lia|].
  set (pool := p0 :: pool') in *.
  set (i := raw j mod length pool).
  assert (i < length pool) as Hi by (apply Nat.mod_upper_bound; done).
  destruct (lookup_lt_is_Some_2 pool i Hi) as [x Hx].
  rewrite (nth_lookup_Some _ _ _ _ Hx).
  pose proof (delete_Permutation pool i x Hx) as Hperm.
  destruct (IH (delete i pool) (S j)) as (Hlen & Hin & Hnd).
  { rewrite length_delete by (by eexists). simpl in *. lia. }
  split; [simpl; lia|]. split.
  - intros y [->|Hy]%elem_of_cons; [by eapply list_elem_of_lookup_2|].
    rewrite Hperm. apply list_elem_of_further. by apply Hin.
  - intros Hpool. rewrite Hperm in Hpool. apply NoDup_cons in Hpool as [Hx' Hrest].
    apply NoDup_cons. split; [|by apply Hnd]. intros Hy. by apply Hx', Hin.
Qed.

End lookup_facts.

Lemma insert_index_perm {F : Type} `{Validator.Scalar F} (row : list F) i p :
  Validator.insert_index row i p ≡ₚ i :: p.
Proof.
  induction p as [|j p IH]; simpl; [done|].
  destruct (row !! i), (row !! j); try (rewrite IH; apply Permutation_swap).
  destruct (Validator.fltb _ _); [done|]. rewrite IH. apply Permutation_swap.
Qed.

Lemma insertion_argsort_perm {F : Type} `{Validator.Scalar F} (row : list F) :
  Validator.insertion_argsort row ≡ₚ seq 0 (length row).
Proof.
  unfold Validator.insertion_argsort.
  assert (∀ l acc, foldl (λ p i, Validator.insert_index row i p) acc l ≡ₚ l ++ acc)
    as Hfold.
  { induction l as [|i l IH]; intros acc; simpl; [done|].
    rewrite IH, insert_index_perm. by rewrite Permutation_middle. }
  by rewrite Hfold, app_nil_r.
Qed.

(** X14.  [validate] returns one row of similarities per query, each with one
    entry per row of the table, when every queried id is a row of the
    table; otherwise the lookup of the queried rows fails. *)
Theorem validate_shape {F : Type} `{Validator.Scalar F}
    (embeddings : list (list F)) (int_codes : list nat) :
  match Validator.validate embeddings int_codes with
  | Ok sim =>
      Forall (λ q, q < length embeddings) int_codes ∧
      length sim = length int_codes ∧
      Forall (λ row, length row = length embeddings) sim
  | Raise e =>
      e = InvalidArgumentError ∧ Exists (λ q, length embeddings ≤ q) int_codes
  end.
Proof.
  unfold Validator.validate.
  pose proof (embedding_lookup_ids (Validator.normalize embeddings) int_codes) as Hlook.
  assert (length (Validator.normalize embeddings) = length embeddings) as Hlen
    by (unfold Validator.normalize; by rewrite length_fmap).
  destruct (Validator.embedding_lookup _ int_codes) as [vs|e]; simpl.
  - split; [|split].
    + rewrite <- Hlen. clear Hlen.
      induction Hlook as [|q v ids vs Hq _ IH]; constructor; [|done].
      by eapply lookup_lt_Some.
    + unfold Validator.matmul_transpose. rewrite length_fmap.
      symmetry. by eapply Forall2_length.
    + unfold Validator.matmul_transpose. apply Forall_fmap, Forall_forall.
      intros u _. simpl. by rewrite length_fmap.
  - by rewrite <- Hlen.
Qed.

(** X15.  The lookup returns exactly [K] ids when the table has more than [K]
    rows, and all the ids but the first-ranked one when it has not: reading
    [nearest[k]] for every [k < K] needs a table of more than [K] rows. *)
Theorem nearest_count {F : Type} `{Validator.Scalar F}
    (argsort : list F → list nat) (row : list F) (top_k : nat) :
  argsort (Validator.fneg <$> row) ≡ₚ seq 0 (length (Validator.fneg <$> row)) →
  length (Validator.nearest argsort row top_k) = top_k `min` (length row - 1) ∧
  (∀ k, is_Some (Validator.nearest argsort row top_k !! k) ↔
        k < top_k ∧ k + 1 < length row).
Proof.
  intros Hperm. pose proof (length_nearest argsort row top_k Hperm) as Hlen.
  split; [done|]. intros k. rewrite lookup_lt_is_Some, Hlen. lia.
Qed.

Lemma nearest_count_witness :
  let row := [PrimFloat.one; PrimFloat.opp PrimFloat.one; PrimFloat.zero] in
  length (Validator.nearest Validator.insertion_argsort row 5) = 5 `min` (length row - 1) ∧
  (∀ k, is_Some (Validator.nearest Validator.insertion_argsort row 5 !! k) ↔
        k < 5 ∧ k + 1 < length row).
Proof.
  apply (nearest_count Validator.insertion_argsort
           [PrimFloat.one; PrimFloat.opp PrimFloat.one; PrimFloat.zero] 5).
  apply insertion_argsort_perm.
Defined.

(** X16.  The lookup cell of the restore notebook queries the ids 0 to 9 and 186
    for 8 neighbours each.  On a table of at least 187 rows, with a word
    for every id, it prints its 11 lines without exception: every queried
    row exists, every query has its 8 neighbours, and every neighbour has
    a word. *)
Theorem lookup_cell_runs {F : Type} `{Validator.Scalar F}
    (argsort : list F → list nat) (embeddings : list (list F))
    (int_to_vocab : gmap Z string) :
  (∀ row, argsort row ≡ₚ seq 0 (length row)) →
  (∀ id, id < length embeddings → is_Some (int_to_vocab !! Z.of_nat id)) →
  187 ≤ length embeddings →
  ∃ lines, Lookup.lookup_cell argsort embeddings int_to_vocab = (lines, None) ∧
           length lines = 11.
Proof.
  intros Hperm Hkeys HV. unfold Lookup.lookup_cell.
  pose proof (validate_shape embeddings (seq 0 10 ++ [186])) as Hshape.
  destruct (Validator.validate embeddings (seq 0 10 ++ [186])) as [sim|e].
  - destruct Hshape as (Hids & Hlen & Hrows).
    destruct (report_runs argsort int_to_vocab (seq 0 10 ++ [186]) sim 8
      (length embeddings) (seq 0 (length (seq 0 10 ++ [186]))))
      as (lines & Hlines & Hcount); try done; [lia| |by exists lines].
    apply Forall_forall. intros i Hi. by apply elem_of_seq in Hi as [_ Hi].
  - exfalso. destruct Hshape as [_ Hex].
    apply Exists_exists in Hex as (q & Hq & Hsmall).
    assert (q ≤ 186); [|lia].
    apply elem_of_app in Hq as [Hq|Hq].
    + apply elem_of_seq in Hq. lia.
    + apply list_elem_of_singleton in Hq. lia.
Qed.

Lemma lookup_cell_runs_witness :
  ∃ lines,
    Lookup.lookup_cell Validator.insertion_argsort (replicate 187 [PrimFloat.one])
      (map_seqZ 0 (replicate 187 "the")) = (lines, None) ∧
    length lines = 11.
Proof.
  apply (lookup_cell_runs Validator.insertion_argsort (replicate 187 [PrimFloat.one])
           (map_seqZ 0 (replicate 187 "the"))).
  - intros row. apply insertion_argsort_perm.
  - intros id Hid. rewrite length_replicate in Hid.
    apply lookup_map_seqZ_is_Some. rewrite length_replicate. lia.
  - rewrite length_replicate. lia.
Defined.

Lemma random_sample_spec population k raw j :
  match Lookup.random_sample population k raw j with
  | Ok s => k ≤ length population ∧ length s = k ∧
            (∀ x, x ∈ s → x ∈ population) ∧ (NoDup population → NoDup s)
  | Raise e => e = ValueError ∧ length population < k
  end.
Proof.
  unfold Lookup.random_sample. case_decide as Hk.
  - split; [done|]. by apply pick_spec.
  - split; [done|lia].
Qed.

(** X17.  [validate_random] draws half of its queries, without repetition, from
    the ids below the sample window and half from the window that starts
    at id 1000, and so needs a table of more than 1000 rows as soon as it
    draws a query at all.  It raises [ValueError] when half the sample size
    exceeds the window, and the lookup of the rows fails when a drawn id is
    not a row of the table. *)
Theorem validate_random_samples {F : Type} `{Validator.Scalar F}
    (embeddings : list (list F)) (sample_size sample_window : nat) (raw : nat → nat) :
  match Lookup.validate_random embeddings sample_size sample_window raw with
  | Ok (sim, sample_examples) =>
      sample_size / 2 ≤ sample_window ∧
      length sample_examples = 2 * (sample_size / 2) ∧
      length sim = length sample_examples ∧
      Forall (λ row, length row = length embeddings) sim ∧
      NoDup (take (sample_size / 2) sample_examples) ∧
      Forall (λ q, q < sample_window) (take (sample_size / 2) sample_examples) ∧
      NoDup (drop (sample_size / 2) sample_examples) ∧
      Forall (λ q, 1000 ≤ q < 1000 + sample_window)
        (drop (sample_size / 2) sample_examples) ∧
      Forall (λ q, q < length embeddings) sample_examples ∧
      (2 ≤ sample_size → 1000 < length embeddings)
  | Raise e =>
      (e = ValueError ∧ sample_window < sample_size / 2) ∨
      (e = InvalidArgumentError ∧ sample_size / 2 ≤ sample_window ∧
       ∃ q, (q < sample_window ∨ 1000 ≤ q < 1000 + sample_window) ∧
            length embeddings ≤ q)
  end.
Proof.
  unfold Lookup.validate_random. set (h := sample_size / 2).
  pose proof (random_sample_spec (seq 0 sample_window) h raw 0) as Hlow.
  pose proof (random_sample_spec (seq 1000 sample_window) h raw h) as Hhigh.
  rewrite length_seq in Hlow, Hhigh.
  destruct (Lookup.random_sample (seq 0 sample_window) h raw 0) as [low|e];
    [|left; by destruct Hlow]. simpl.
  destruct (Lookup.random_sample (seq 1000 sample_window) h raw h) as [high|e];
    [|left; by destruct Hhigh]. simpl.
  destruct Hlow as (Hh & Hllen & Hlin & Hlnd).
  destruct Hhigh as (_ & Hhlen & Hhin & Hhnd).
  assert (Forall (λ q, q < sample_window) low) as Hlr.
  { apply Forall_forall. intros q Hq. apply Hlin, elem_of_seq in Hq. lia. }
  assert (Forall (λ q, 1000 ≤ q < 1000 + sample_window) high) as Hhr.
  { apply Forall_forall. intros q Hq. apply Hhin, elem_of_seq in Hq. lia. }
  pose proof (validate_shape embeddings (low ++ high)) as Hshape.
  destruct (Validator.validate embeddings (low ++ high)) as [sim|e]; simpl.
  - destruct Hshape as (Hids & Hlen & Hrows).
    rewrite take_app_length', drop_app_length' by done.
    split; [done|]. split; [rewrite length_app; lia|].
    split; [done|]. split; [done|].
    split; [apply Hlnd, NoDup_seq|]. split; [done|].
    split; [apply Hhnd, NoDup_seq|]. split; [done|]. split; [done|].
    intros Hsize. assert (0 < h) as Hpos by (apply Nat.div_str_pos; lia).
    destruct high as [|q high']; [simpl in Hhlen; lia|].
    apply Forall_app in Hids as [_ Hids].
    apply Forall_cons in Hids as [Hq _]. apply Forall_cons in Hhr as [Hq' _]. lia.
  - right. destruct Hshape as [-> Hex]. split; [done|]. split; [done|].
    apply Exists_exists in Hex as (q & Hq & HV). exists q. split; [|done].
    rewrite Forall_forall in Hlr. rewrite Forall_forall in Hhr.
    apply elem_of_app in Hq as [Hq|Hq]; [left; by apply Hlr|right; by apply Hhr].
Qed.

(** X18.  The validation step of [train] (16 queries, 5 neighbours each) prints
    nothing and fails in the lookup of the queried rows on a table of at
    most 1000 rows; on a table of at least 1100 rows, with a word for every
    id, it prints its 16 lines without exception. *)
Theorem train_validation_runs {F : Type} `{Validator.Scalar F}
    (argsort : list F → list nat) (embeddings : list (list F))
    (int_to_vocab : gmap Z string) (raw : nat → nat) :
  (∀ row, argsort row ≡ₚ seq 0 (length row)) →
  (∀ id, id < length embeddings → is_Some (int_to_vocab !! Z.of_nat id)) →
  (length embeddings ≤ 1000 →
   Lookup.train_validation argsort embeddings int_to_vocab raw =
   ([], Some InvalidArgumentError)) ∧
  (1100 ≤ length embeddings →
   ∃ lines, Lookup.train_validation argsort embeddings int_to_vocab raw = (lines, None) ∧
            length lines = 16).
Proof.
  intros Hperm Hkeys. unfold Lookup.train_validation.
  pose proof (validate_random_samples embeddings 16 100 raw) as Hspec.
  change (16 / 2) with 8 in Hspec.
  destruct (Lookup.validate_random embeddings 16 100 raw) as [[sim ex]|e].
  - destruct Hspec as (_ & Hlen & Hsim & Hrows & _ & _ & _ & _ & Hids & HV).
    split; [intros Hsmall; specialize (HV ltac:(lia)); lia|].
    intros Hbig.
    destruct (report_runs argsort int_to_vocab ex sim 5 (length embeddings) (seq 0 16))
      as (lines & Hlines & Hcount); try done; [lia| |by exists lines].
    apply Forall_forall. intros i Hi. apply elem_of_seq in Hi. lia.
  - destruct Hspec as [[_ Hwin]|(-> & _ & q & Hq & HV)]; [lia|].
    split; [done|]. intros Hbig. lia.
Qed.

Lemma train_validation_runs_witness :
  (length (replicate 1100 [PrimFloat.one]) ≤ 1000 →
   Lookup.train_validation Validator.insertion_argsort (replicate 1100 [PrimFloat.one])
     (map_seqZ 0 (replicate 1100 "the")) (λ _, 0) = ([], Some InvalidArgumentError)) ∧
  (1100 ≤ length (replicate 1100 [PrimFloat.one]) →
   ∃ lines,
     Lookup.train_validation Validator.insertion_argsort (replicate 1100 [PrimFloat.one])
       (map_seqZ 0 (replicate 1100 "the")) (λ _, 0) = (lines, None) ∧
     length lines = 16).
Proof.
  apply (train_validation_runs Validator.insertion_argsort (replicate 1100 [PrimFloat.one])
           (map_seqZ 0 (replicate 1100 "the")) (λ _, 0)).
  - intros row. apply insertion_argsort_perm.
  - intros id Hid. rewrite length_replicate in Hid.
    apply lookup_map_seqZ_is_Some. rewrite length_replicate. lia.
Defined.

(** ** The windows of the batch generator *)

Section batch_window_facts.
Import Batches.

Lemma elem_of_zip_batch_pairs batch R c t :
  (c, t) ∈ zip (batch_pairs batch R).1 (batch_pairs batch R).2 ↔
  ∃ i, batch !! i = Some c ∧ t ∈ target_words batch i (R i).
Proof.
  unfold batch_pairs, block_targets. simpl. rewrite zip_centers_contexts.
  rewrite elem_of_concat. split.
  - intros (l & Hct & Hl). apply list_elem_of_lookup in Hl as [i Hl].
    rewrite lookup_zip_with in Hl.
    destruct (batch !! i) as [c'|] eqn:Hc; [|done]. simpl in Hl.
    rewrite list_lookup_fmap in Hl.
    destruct (seq _ _ !! i) as [i'|] eqn:Hi; [|done].
    apply lookup_seq in Hi as [-> _]. simpl in Hl. injection Hl as <-.
    apply list_elem_of_fmap in Hct as (t' & [= -> ->] & Ht). by exists i.
  - intros (i & Hc & Ht).
    exists ((λ b, (c, b)) <$> target_words batch i (R i)). split.
    + by apply list_elem_of_fmap_2.
    + apply list_elem_of_lookup. exists i.
      rewrite lookup_zip_with, Hc. simpl. rewrite list_lookup_fmap.
      rewrite (proj2 (lookup_seq 0 _ i i)); [done|].
      split; [done|]. by eapply lookup_lt_Some.
Qed.

Lemma lookup_block words batch_size k i :
  block words batch_size k !! i =
  if decide (i < batch_size) then words !! (k * batch_size + i) else None.
Proof.
  unfold block. rewrite lookup_slice.
  by replace (k * batch_size + batch_size - k * batch_size) with batch_size by lia.
Qed.

(** The targets of a center of a full block, in positions of the sequence. *)
Lemma elem_of_block_targets words batch_size k i R w :
  (k + 1) * batch_size ≤ length words → i < batch_size →
  w ∈ target_words (block words batch_size k) i R ↔
  ∃ p, SequenceWindows.batch_window batch_size k i R p ∧ words !! p = Some w.
Proof.
  intros Hfull Hi. rewrite elem_of_target_words, elem_of_window.
  unfold SequenceWindows.batch_window. split.
  - intros (j & Hj & Hne & Hr). rewrite lookup_block in Hj.
    case_decide as Hjb; [|done]. exists (k * batch_size + j).
    split; [|done]. split; lia.
  - intros (p & [Hp Hne] & Hw). exists (p - k * batch_size).
    rewrite lookup_block, decide_True by lia.
    replace (k * batch_size + (p - k * batch_size)) with p by lia.
    split; [done|]. split; lia.
Qed.

End batch_window_facts.

(** C3, as stated, fails: the window of [get_batches] is taken in the
    batch, not in the sequence.  On [[1,2,3,4]] with batch size 2 and
    window size 1, the token 3 is next to the token 2 in the sequence but
    in the next batch, and no pair [(2, 3)] is emitted. *)
Lemma window_stops_at_batch :
  ¬ SequenceWindows.spans_sequence [1; 2; 3; 4]%Z 2 1 (λ _, 0).
Proof.
  intros Hspan.
  assert ((2, 3)%Z ∈ zip [1; 2]%Z [2; 1]%Z) as Hin.
  { apply (Hspan 0 [1; 2]%Z [2; 1]%Z 1 2 2%Z 3%Z); try done.
    - vm_compute. lia.
    - vm_compute. lia. }
  simpl in Hin.
  apply elem_of_cons in Hin as [[=]|Hin].
  apply elem_of_cons in Hin as [[=]|Hin].
  by apply elem_of_nil in Hin.
Qed.

(** C3, amended.  In a yielded batch the contexts are the target lists of
    the positions of its block, in order.  The targets of the center at
    position [k*B + i] of the sequence, for its drawn radius [R] of
    [[1, C]], are the tokens found at the positions of the sequence within
    [R] of the center, inside the block [[k*B, k*B + B - 1]], the center's
    own position left out, each token once; and the pairs of the batch
    are the centers of the block with each of these targets. *)
Theorem batch_targets_window (words : list Z) (batch_size window_size : nat)
    (rand : nat → nat) (k : nat) (x y : list Z) :
  (Batches.get_batches words batch_size window_size rand).1 !! k = Some (x, y) →
  let batch := Batches.block words batch_size k in
  let R := Batches.batch_radius batch_size window_size rand k in
  y = concat (Batches.block_targets batch R) ∧
  (∀ i, i < batch_size →
     1 ≤ R i ≤ window_size ∧
     Batches.block_targets batch R !! i = Some (Batches.target_words batch i (R i)) ∧
     NoDup (Batches.target_words batch i (R i)) ∧
     ∀ w, w ∈ Batches.target_words batch i (R i) ↔
          ∃ p, SequenceWindows.batch_window batch_size k i (R i) p ∧
               words !! p = Some w) ∧
  (∀ c t, (c, t) ∈ zip x y ↔
          ∃ i p, i < batch_size ∧ words !! (k * batch_size + i) = Some c ∧
                 SequenceWindows.batch_window batch_size k i (R i) p ∧
                 words !! p = Some t).
Proof.
  intros Hb batch R.
  apply get_batches_yield in Hb as (HB & HW & Hk & Hxy).
  assert ((k + 1) * batch_size ≤ length words) as Hfull.
  { pose proof (Nat.Div0.mul_div_le (length words) batch_size). nia. }
  pose proof (length_block words batch_size k Hfull) as Hlen.
  unfold Batches.nth_batch in Hxy. fold batch R in Hxy.
  assert (x = (Batches.batch_pairs batch R).1) as Hx by (by rewrite <- Hxy).
  assert (y = (Batches.batch_pairs batch R).2) as Hy by (by rewrite <- Hxy).
  split; [|split].
  - by rewrite Hy.
  - intros i Hi. split; [by apply drawn_radius_range|]. split; [|split].
    + unfold Batches.block_targets. rewrite list_lookup_fmap.
      rewrite (lookup_seq_lt 0 (length batch) i) by (unfold batch; lia). done.
    + apply NoDup_target_words.
    + intros w. by apply elem_of_block_targets.
  - intros c t.
    rewrite Hx, Hy, elem_of_zip_batch_pairs. split.
    + intros (i & Hc & Ht). unfold batch in Hc. rewrite lookup_block in Hc.
      case_decide as Hi; [|done].
      apply elem_of_block_targets in Ht as (p & Hp & Hw); [|done..].
      by exists i, p.
    + intros (i & p & Hi & Hc & Hp & Hw). exists i. split.
      * unfold batch. by rewrite lookup_block, decide_True.
      * apply elem_of_block_targets; [done..|]. by exists p.
Qed.

Lemma batch_targets_window_witness :
  let batch := Batches.block [1; 2; 3; 4; 5]%Z 2 1 in
  let R := Batches.batch_radius 2 1 (λ _, 0) 1 in
  [4; 3]%Z = concat (Batches.block_targets batch R) ∧
  (∀ i, i < 2 →
     1 ≤ R i ≤ 1 ∧
     Batches.block_targets batch R !! i = Some (Batches.target_words batch i (R i)) ∧
     NoDup (Batches.target_words batch i (R i)) ∧
     ∀ w, w ∈ Batches.target_words batch i (R i) ↔
          ∃ p, SequenceWindows.batch_window 2 1 i (R i) p ∧
               [1; 2; 3; 4; 5]%Z !! p = Some w) ∧
  (∀ c t, (c, t) ∈ zip [3; 4]%Z [4; 3]%Z ↔
          ∃ i p, i < 2 ∧ [1; 2; 3; 4; 5]%Z !! (1 * 2 + i) = Some c ∧
                 SequenceWindows.batch_window 2 1 i (R i) p ∧
                 [1; 2; 3; 4; 5]%Z !! p = Some t).
Proof.
  apply (batch_targets_window [1; 2; 3; 4; 5]%Z 2 1 (λ _, 0) 1 [3; 4]%Z [4; 3]%Z).
  vm_compute. reflexivity.
Defined.

(** ** The subsampler in binary64 *)

(** The quotient of two positive counts below [2^53] is not zero in
    binary64: both counts are exact, and the quotient of their 53-bit
    significands has at least one bit. *)

Section binary64_facts.
Import SpecFloat.
Local Open Scope Z_scope.

Lemma digits2_pos_size p : digits2_pos p = Pos.size p.
Proof. induction p as [p IH|p IH|]; simpl; by rewrite ?IH. Qed.

Lemma digits2_pos_bounds p :
  2 ^ (Z.pos (digits2_pos p) - 1) ≤ Z.pos p < 2 ^ Z.pos (digits2_pos p).
Proof.
  rewrite digits2_pos_size.
  pose proof (Pos.size_gt p) as Hgt. pose proof (Pos.size_le p) as Hle.
  apply Pos2Z.pos_lt_pos in Hgt. apply Pos2Z.pos_le_pos in Hle.
  rewrite Pos2Z.inj_pow in Hgt. rewrite Pos2Z.inj_pow in Hle.
  change (Z.pos p~0) with (2 * Z.pos p) in Hle.
  split; [|done].
  replace (Z.pos (Pos.size p)) with (Z.succ (Z.pos (Pos.size p) - 1)) in Hle by lia.
  rewrite Z.pow_succ_r in Hle by lia. lia.
Qed.

Lemma digits2_pos_le p k : Z.pos p < 2 ^ k → Z.pos (digits2_pos p) ≤ k.
Proof.
  intros Hlt. destruct (decide (Z.pos (digits2_pos p) ≤ k)) as [|Hn]; [done|exfalso].
  pose proof (digits2_pos_bounds p) as [Hlo _].
  assert (0 ≤ k).
  { destruct (decide (0 ≤ k)); [done|]. rewrite Z.pow_neg_r in Hlt by lia. lia. }
  assert (2 ^ k ≤ 2 ^ (Z.pos (digits2_pos p) - 1)) by (apply Z.pow_le_mono_r; lia).
  lia.
Qed.


Local Abbreviation prec := FloatOps.prec.
Local Abbreviation emax := FloatOps.emax.

Lemma fexp_binary64 x : fexp prec emax x = Z.max (x - 53) (-1074).
Proof. reflexivity. Qed.

Lemma shr_record_of_loc_m m l : shr_m (shr_record_of_loc m l) = m.
Proof. by destruct l as [|[]]. Qed.

(** A mantissa of at most 54 digits, above the subnormal range, keeps a
    positive mantissa of at most 53 digits through the shift of a rounding. *)
Lemma shr_fexp_pos pm e l :
  Z.pos (digits2_pos pm) ≤ 54 →
  -1074 ≤ Z.pos (digits2_pos pm) + e - 53 →
  ∃ m1 r1 s1 e1,
    shr_fexp prec emax (Z.pos pm) e l = (Build_shr_record (Z.pos m1) r1 s1, e1) ∧
    Z.pos (digits2_pos m1) ≤ 53 ∧
    Z.pos (digits2_pos m1) + e1 = Z.pos (digits2_pos pm) + e.
Proof.
  intros Hd He. unfold shr_fexp, Zdigits2. rewrite fexp_binary64.
  rewrite Z.max_l by lia.
  replace (Z.pos (digits2_pos pm) + e - 53 - e) with (Z.pos (digits2_pos pm) - 53) by lia.
  destruct (decide (Z.pos (digits2_pos pm) = 54)) as [H54|H54].
  - rewrite H54. simpl.
    destruct pm as [p|p|]; simpl in H54; [| |lia];
      rewrite Pos2Z.inj_succ in H54;
      destruct l as [|[]]; simpl; do 4 eexists; (split; [reflexivity|]);
      simpl; rewrite ?Pos2Z.inj_succ; lia.
  - destruct (Z.pos (digits2_pos pm) - 53) as [|n|n] eqn:Hn; [|lia|];
      simpl; destruct l as [|[]]; simpl; do 4 eexists; (split; [reflexivity|]); lia.
Qed.

Lemma digits2_pos_succ p :
  Z.pos (digits2_pos p) ≤ Z.pos (digits2_pos (p + 1)) ≤ Z.pos (digits2_pos p) + 1.
Proof.
  pose proof (digits2_pos_bounds p) as [Hlo Hhi].
  pose proof (digits2_pos_bounds (p + 1)) as [Hlo' Hhi'].
  rewrite Pos2Z.inj_add in Hlo', Hhi'.
  split.
  - destruct (decide (Z.pos (digits2_pos p) ≤ Z.pos (digits2_pos (p + 1)))); [done|exfalso].
    assert (2 ^ Z.pos (digits2_pos (p + 1)) ≤ 2 ^ (Z.pos (digits2_pos p) - 1))
      by (apply Z.pow_le_mono_r; lia). lia.
  - apply digits2_pos_le. rewrite Pos2Z.inj_add.
    rewrite Z.pow_add_r by lia. lia.
Qed.

Lemma round_nearest_even_pos m l :
  ∃ m', round_nearest_even (Z.pos m) l = Z.pos m' ∧
        Z.pos (digits2_pos m) ≤ Z.pos (digits2_pos m') ≤ Z.pos (digits2_pos m) + 1.
Proof.
  pose proof (digits2_pos_succ m).
  destruct l as [|[]]; unfold round_nearest_even; try (exists m; split; [done|lia]).
  - destruct (Z.even (Z.pos m)); [exists m; split; [done|lia]|].
    exists (m + 1)%positive. split; [done|lia].
  - exists (m + 1)%positive. split; [done|lia].
Qed.

(** Rounding a positive mantissa above the subnormal range never gives a
    zero. *)
Lemma binary_round_aux_nonzero s pm e l :
  Z.pos (digits2_pos pm) ≤ 54 →
  -1074 ≤ Z.pos (digits2_pos pm) + e - 53 →
  SFeqb (binary_round_aux prec emax s (Z.pos pm) e l) (S754_zero false) = false.
Proof.
  intros Hd He. unfold binary_round_aux.
  destruct (shr_fexp_pos pm e l Hd He) as (m1 & r1 & s1 & e1 & -> & Hd1 & He1).
  cbn [shr_m].
  destruct (round_nearest_even_pos m1
    (loc_of_shr_record {| shr_m := Z.pos m1; shr_r := r1; shr_s := s1 |}))
    as (m2 & -> & Hd2).
  destruct (shr_fexp_pos m2 e1 loc_Exact) as (m3 & r3 & s3 & e3 & -> & _); [lia|lia|].
  cbn [shr_m]. by destruct (e3 <=? emax - prec), s.
Qed.


Lemma binary_round_aux_exact s m e :
  Z.pos (digits2_pos m) = 53 → -1074 ≤ e ≤ 971 →
  binary_round_aux prec emax s (Z.pos m) e loc_Exact = S754_finite s m e.
Proof.
  intros Hd He. unfold binary_round_aux, shr_fexp, Zdigits2.
  rewrite fexp_binary64, Hd.
  replace (Z.max (53 + e - 53) (-1074) - e) with 0 by lia.
  cbn [shr shr_record_of_loc shr_m loc_of_shr_record round_nearest_even Zdigits2].
  rewrite fexp_binary64, Hd.
  replace (Z.max (53 + e - 53) (-1074) - e) with 0 by lia.
  cbn [shr shr_record_of_loc shr_m].
  replace (e <=? emax - prec) with true; [done|].
  symmetry. apply Z.leb_le. change (emax - prec) with 971. lia.
Qed.

Lemma digits2_pos_iter_xO p k :
  Z.pos (digits2_pos (Pos.iter xO p k)) = Z.pos (digits2_pos p) + Z.pos k.
Proof.
  induction k as [|k IH] using Pos.peano_ind.
  - simpl. lia.
  - rewrite Pos.iter_succ. simpl. lia.
Qed.

(** The binary64 value of a positive integer below 2^53: a full mantissa
    and an exponent of [[-52, 0]]. *)
Lemma binary_normalize_count z :
  0 < z < 2 ^ 53 →
  ∃ m e, binary_normalize prec emax z 0 false = S754_finite false m e ∧
         Z.pos (digits2_pos m) = 53 ∧ -52 ≤ e ≤ 0.
Proof.
  intros [Hpos Hlt]. destruct z as [|p|p]; [lia| |lia].
  pose proof (digits2_pos_le p 53 Hlt) as Hd.
  unfold binary_normalize, binary_round, shl_align. rewrite fexp_binary64.
  rewrite Z.max_l by lia.
  replace (Z.pos (digits2_pos p) + 0 - 53 - 0) with (Z.pos (digits2_pos p) - 53) by lia.
  destruct (Z.pos (digits2_pos p) - 53) as [|k|k] eqn:Hk; [|lia|].
  - exists p, 0. rewrite binary_round_aux_exact by lia. split; [done|lia].
  - exists (Pos.iter xO p k), (Z.pos (digits2_pos p) + 0 - 53).
    pose proof (digits2_pos_iter_xO p k) as Hiter.
    rewrite binary_round_aux_exact by lia. split; [done|lia].
Qed.

(** The quotient of two such values is not a zero. *)
Lemma SFdiv_count_nonzero mx ex my ey :
  Z.pos (digits2_pos mx) = 53 → -52 ≤ ex ≤ 0 →
  Z.pos (digits2_pos my) = 53 → -52 ≤ ey ≤ 0 →
  SFeqb (SFdiv prec emax (S754_finite false mx ex) (S754_finite false my ey))
    (S754_zero false) = false.
Proof.
  intros Hdx Hex Hdy Hey.
  pose proof (digits2_pos_bounds mx) as [Hxlo Hxhi].
  pose proof (digits2_pos_bounds my) as [Hylo Hyhi].
  rewrite Hdx in Hxlo, Hxhi. rewrite Hdy in Hylo, Hyhi.
  unfold SFdiv, SFdiv_core_binary, Zdigits2. rewrite fexp_binary64, Hdx, Hdy.
  replace (Z.min (Z.max (53 + ex - (53 + ey) - 53) (-1074)) (ex - ey))
    with (ex - ey - 53) by lia.
  replace (ex - ey - (ex - ey - 53)) with 53 by lia.
  rewrite Z.shiftl_mul_pow2 by lia.
  pose proof (Z.div_eucl_eq (Z.pos mx * 2 ^ 53) (Z.pos my) ltac:(lia)) as Heq.
  pose proof (Z.mod_pos_bound (Z.pos mx * 2 ^ 53) (Z.pos my) ltac:(lia)) as Hmod.
  unfold Z.modulo in Hmod.
  destruct (Z.div_eucl (Z.pos mx * 2 ^ 53) (Z.pos my)) as [q r].
  change (2 ^ (53 - 1)) with 4503599627370496 in *.
  change (2 ^ 53) with 9007199254740992 in *.
  assert (1 ≤ q < 2 ^ 54) as [Hq1 Hq2] by (change (2 ^ 54) with 18014398509481984; nia).
  destruct q as [|pq|pq]; [lia| |lia].
  apply binary_round_aux_nonzero.
  - by apply digits2_pos_le.
  - pose proof (Pos2Z.is_pos (digits2_pos pq)). lia.
Qed.

End binary64_facts.

Lemma frequency_nonzero (count total : nat) :
  0 < count → 0 < total → (Z.of_nat count < 2 ^ 53)%Z → (Z.of_nat total < 2 ^ 53)%Z →
  PrimFloat.eqb (PrimFloat.div (Subsampler64.of_count count) (Subsampler64.of_count total)) PrimFloat.zero = false.
Proof.
  intros Hc Ht Hcb Htb.
  rewrite FloatAxioms.eqb_spec, FloatAxioms.div_spec. unfold Subsampler64.of_count.
  rewrite !FloatAxioms.of_uint63_spec, !Uint63.of_Z_spec.
  assert (∀ n : nat, 0 < n → (Z.of_nat n < 2 ^ 53)%Z →
            (Z.of_nat n `mod` Uint63.wB = Z.of_nat n)%Z) as Hmod.
  { intros n Hn Hb. apply Z.mod_small. split; [lia|].
    eapply Z.lt_trans; [done|]. done. }
  rewrite !Hmod by done.
  destruct (binary_normalize_count (Z.of_nat count)) as (mx & ex & -> & Hdx & Hex); [lia|].
  destruct (binary_normalize_count (Z.of_nat total)) as (my & ey & -> & Hdy & Hey); [lia|].
  change (FloatOps.Prim2SF PrimFloat.zero) with (SpecFloat.S754_zero false).
  by apply SFdiv_count_nonzero.
Qed.


Section subsampler64_facts.
Import Subsampler64.

Lemma count_occ_le_length (words : list Z) w : count_occ Z.eq_dec words w ≤ length words.
Proof.
  induction words as [|v rest IH]; simpl; [done|]. destruct (Z.eq_dec v w); lia.
Qed.

Lemma frequency64_nonzero words w :
  (Z.of_nat (length words) < 2 ^ 53)%Z → w ∈ words →
  PrimFloat.eqb (frequency words w) PrimFloat.zero = false.
Proof.
  intros Hlen Hin. unfold frequency.
  pose proof (count_occ_pos words w Hin).
  pose proof (count_occ_le_length words w).
  apply frequency_nonzero; lia.
Qed.

Lemma freqs64_table words :
  ∃ fq, freqs words = Ok fq ∧
        ∀ w, fq !! w = if decide (w ∈ words) then Some (frequency words w) else None.
Proof.
  unfold freqs.
  destruct (dict_comp_lookup
    (λ (_ : Z) (count : nat), int_truediv count (length words))
    (λ (_ : Z) (count : nat),
       PrimFloat.div (of_count count) (of_count (length words)))
    (Subsampler.Counter words)) as (fq & Hfq & Hlook).
  - intros k v Hk. unfold int_truediv.
    case_decide as Hz; [|done].
    rewrite Counter_lookup in Hk. case_decide as Hin; [|done].
    destruct words; [by apply elem_of_nil in Hin|done].
  - exists fq. split; [done|]. intros w.
    rewrite Hlook, Counter_lookup. by case_decide.
Qed.

Lemma p_drop64_table words t fq :
  (Z.of_nat (length words) < 2 ^ 53)%Z →
  (∀ w, fq !! w = if decide (w ∈ words) then Some (frequency words w) else None) →
  ∃ pd, p_drop words t fq = Ok pd ∧
        ∀ w, pd !! w =
             if decide (w ∈ words) then Some (drop_probability words t w) else None.
Proof.
  intros Hlen Hfq. unfold p_drop.
  destruct (dict_comp_lookup
    (λ (word : Z) (_ : nat),
       f ← getitem fq word; q ← truediv t f;
       Ok (PrimFloat.sub PrimFloat.one (PrimFloat.sqrt q)))
    (λ (word : Z) (_ : nat), drop_probability words t word)
    (Subsampler.Counter words)) as (pd & Hpd & Hlook).
  - intros k v Hk. rewrite Counter_lookup in Hk. case_decide as Hin; [|done].
    unfold getitem. rewrite Hfq, decide_True by done. simpl.
    unfold truediv. by rewrite frequency64_nonzero.
  - exists pd. split; [done|]. intros w.
    rewrite Hlook, Counter_lookup. by case_decide.
Qed.

Lemma keep_words64_retained pd p draw words :
  (∀ w, w ∈ words → pd !! w = Some (p w)) →
  ∀ k, keep_words pd draw k words = Ok (retained PrimFloat.ltb p draw k words).
Proof.
  induction words as [|w rest IH]; intros Hpd k; simpl; [done|].
  unfold getitem. rewrite Hpd by apply list_elem_of_here. simpl.
  rewrite IH by (intros; apply Hpd; by apply list_elem_of_further). simpl.
  by destruct (PrimFloat.ltb (p w) (draw k)).
Qed.

End subsampler64_facts.

(** C4, as stated, fails at a draw equal to [p]: on the one-token sequence
    [[7]] with threshold 0.25 the frequency is 1.0 and [p] is 0.5; the draw
    0.5 is not less than [p], yet the occurrence is dropped. *)
Lemma draw_equal_to_p_is_dropped :
  Subsampler64.subsampling [7%Z] Subsampler64.quarter (λ _, Subsampler64.half) = Ok [] ∧
  Subsampler64.drop_probability [7%Z] Subsampler64.quarter 7 = Subsampler64.half ∧
  PrimFloat.ltb Subsampler64.half
    (Subsampler64.drop_probability [7%Z] Subsampler64.quarter 7) = false ∧
  ¬ Subsampler64.drops_below_draw [7%Z] Subsampler64.quarter (λ _, Subsampler64.half).
Proof.
  split; [by vm_compute|]. split; [by vm_compute|]. split; [by vm_compute|].
  unfold Subsampler64.drops_below_draw. vm_compute. discriminate.
Qed.

(** The same on a sequence with two tokens: on [[1,1,2]] with threshold
    0.125 the drop probability of the token 1 is
    [5106967568964011 / 2^53]; with that value as the first draw, and 0.0
    as the later ones, nothing is retained. *)
Example draw_equal_to_p_three_tokens :
  let u := PrimFloat.div (PrimFloat.of_uint63 (Uint63.of_Z 5106967568964011))
                         (PrimFloat.of_uint63 (Uint63.of_Z 9007199254740992)) in
  Subsampler64.drop_probability [1; 1; 2]%Z Subsampler64.eighth 1 = u ∧
  Subsampler64.subsampling [1; 1; 2]%Z Subsampler64.eighth
    (λ k, if decide (k = 0) then u else PrimFloat.zero) = Ok [].
Proof. split; by vm_compute. Qed.

(** C4, amended.  For every integer token sequence of fewer than [2^53]
    tokens, every binary64 threshold [t] and every sequence of draws, the
    subsampler raises nothing; its frequency table holds for each token
    its count divided by the length of the sequence, its table of drop
    probabilities holds [1 - sqrt (t / f)], each operation rounded to
    binary64; and it retains an occurrence exactly when [p] is less than
    the draw made for it, in the binary64 comparison: an occurrence whose
    draw is less than or equal to [p] is dropped. *)
Theorem subsampling_keeps_above_draw (words : list Z) (t : Subsampler64.float)
    (draw : nat → Subsampler64.float) :
  (Z.of_nat (length words) < 2 ^ 53)%Z →
  ∃ fq pd,
    Subsampler64.freqs words = Ok fq ∧
    (∀ w, w ∈ words → fq !! w = Some (Subsampler64.frequency words w)) ∧
    Subsampler64.p_drop words t fq = Ok pd ∧
    (∀ w, w ∈ words → pd !! w = Some (Subsampler64.drop_probability words t w)) ∧
    Subsampler64.subsampling words t draw =
      Ok (Subsampler64.retained PrimFloat.ltb
            (Subsampler64.drop_probability words t) draw 0 words).
Proof.
  intros Hlen.
  destruct (freqs64_table words) as (fq & Hfreqs & Hfq).
  destruct (p_drop64_table words t fq Hlen Hfq) as (pd & Hpdrop & Hpd).
  exists fq, pd. split; [done|]. split.
  { intros w Hin. by rewrite Hfq, decide_True. }
  split; [done|]. split.
  { intros w Hin. by rewrite Hpd, decide_True. }
  unfold Subsampler64.subsampling. rewrite Hfreqs. simpl. rewrite Hpdrop. simpl.
  apply keep_words64_retained. intros w Hin. by rewrite Hpd, decide_True.
Qed.

Lemma subsampling_keeps_above_draw_witness :
  (Z.of_nat (length [7%Z]) < 2 ^ 53)%Z ∧
  ∃ fq pd,
    Subsampler64.freqs [7%Z] = Ok fq ∧
    (∀ w, w ∈ [7%Z] → fq !! w = Some (Subsampler64.frequency [7%Z] w)) ∧
    Subsampler64.p_drop [7%Z] PrimFloat.one fq = Ok pd ∧
    (∀ w, w ∈ [7%Z] →
       pd !! w = Some (Subsampler64.drop_probability [7%Z] PrimFloat.one w)) ∧
    Subsampler64.subsampling [7%Z] PrimFloat.one (λ _, Subsampler64.half) =
      Ok (Subsampler64.retained PrimFloat.ltb
            (Subsampler64.drop_probability [7%Z] PrimFloat.one)
            (λ _, Subsampler64.half) 0 [7%Z]).
Proof.
  split; [by vm_compute|].
  apply (subsampling_keeps_above_draw [7%Z] PrimFloat.one (λ _, Subsampler64.half)).
  by vm_compute.
Defined.

Lemma retained64_sublist keep p draw words k :
  Subsampler64.retained keep p draw k words `sublist_of` words.
Proof.
  revert k. induction words as [|w rest IH]; intros k; simpl; [done|].
  destruct (keep (p w) (draw k)).
  - by apply sublist_skip.
  - by apply sublist_cons.
Qed.

(** X20.  In binary64 too, on a sequence of fewer than [2^53] tokens the
    subsampler raises nothing, whatever the threshold (a negative one
    included) and the draws, and what it returns is the sequence with some
    occurrences left out, the others in their order. *)
Theorem subsampling64_sublist (words : list Z) (t : Subsampler64.float)
    (draw : nat → Subsampler64.float) :
  (Z.of_nat (length words) < 2 ^ 53)%Z →
  ∃ out, Subsampler64.subsampling words t draw = Ok out ∧ out `sublist_of` words.
Proof.
  intros Hlen.
  destruct (freqs64_table words) as (fq & Hfreqs & Hfq).
  destruct (p_drop64_table words t fq Hlen Hfq) as (pd & Hpdrop & Hpd).
  exists (Subsampler64.retained PrimFloat.ltb
            (Subsampler64.drop_probability words t) draw 0 words).
  split; [|apply retained64_sublist].
  unfold Subsampler64.subsampling. rewrite Hfreqs. simpl. rewrite Hpdrop. simpl.
  apply keep_words64_retained. intros w Hin. by rewrite Hpd, decide_True.
Qed.

Lemma subsampling64_sublist_witness :
  (Z.of_nat (length [1; 1; 2]%Z) < 2 ^ 53)%Z ∧
  ∃ out, Subsampler64.subsampling [1; 1; 2]%Z Subsampler64.eighth
           (λ _, Subsampler64.half) = Ok out ∧
         out `sublist_of` [1; 1; 2]%Z.
Proof.
  split; [by vm_compute|].
  apply (subsampling64_sublist [1; 1; 2]%Z Subsampler64.eighth (λ _, Subsampler64.half)).
  by vm_compute.
Defined.
